(** * A shallow embedding of [rpc/block_reader.go] (package rpc).

    The block reader fetches one block of a file from one of the datanodes
    that hold a replica, failing over to the next datanode when a connection
    or a stream breaks.  Bytes are 8-bit values held in [Z]; Go's [int64]
    and [uint64] are [Z] with their wrap-around written out.  The network is
    an explicit world: the sockets that are open, the requests written to
    them, and what each datanode answers when it is dialed. *)

From Stdlib Require Import ZArith List Bool Lia.
From stdpp Require Import base gmap strings pretty.
Import ListNotations.
Open Scope Z_scope.

(** ** Machine integers and bytes *)

Definition byte := Z.

Definition u64 (z : Z) : Z := z mod 2 ^ 64.
Definition s64 (z : Z) : Z := (z + 2 ^ 63) mod 2 ^ 64 - 2 ^ 63.

(** ** Errors (the [error] values the code compares against) *)

Inductive err :=
| EOF                           (* io.EOF *)
| ErrUnexpectedEOF              (* io.ErrUnexpectedEOF *)
| ErrClosedPipe                 (* io.ErrClosedPipe *)
| ErrNoDatanodes                (* errors.New("No available datanodes for block.") *)
| ErrUnsupportedChecksum (t : Z)(* fmt.Errorf("Unsupported checksum type: %d", t) *)
| ErrIO (code : nat).           (* any other error: dial, write, decode, checksum *)

Definition err_eqb (a b : err) : bool :=
  match a, b with
  | EOF, EOF | ErrUnexpectedEOF, ErrUnexpectedEOF
  | ErrClosedPipe, ErrClosedPipe | ErrNoDatanodes, ErrNoDatanodes => true
  | ErrUnsupportedChecksum x, ErrUnsupportedChecksum y => Z.eqb x y
  | ErrIO x, ErrIO y => Nat.eqb x y
  | _, _ => false
  end.

Lemma err_eqb_eq a b : err_eqb a b = true <-> a = b.
Proof.
  destruct a, b; simpl; split; intro H; try discriminate; try reflexivity;
    try (apply Z.eqb_eq in H; subst; reflexivity);
    try (apply Nat.eqb_eq in H; subst; reflexivity);
    inversion H; subst; try apply Z.eqb_refl; apply Nat.eqb_refl.
Qed.

(** ** Readers

    A raw connection delivers a byte sequence [cin] and then ends with the
    error [cend] (io.EOF for an orderly close).  A read into a buffer of
    length [k] returns the next [min k (length cin)] bytes; once the bytes
    are exhausted it returns [(0, cend)]. *)

Record rawconn := { cin : list byte; cend : err }.

Definition raw_read (k : nat) (c : rawconn) : rawconn * list byte * option err :=
  match cin c with
  | [] => (c, [], Some (cend c))
  | _ => ({| cin := skipn k (cin c); cend := cend c |}, firstn k (cin c), None)
  end.

(** [io.ReadFull(r, buf)] with [len(buf) = k] ([io.ReadAtLeast(r, buf, k)]):
    keep reading until [k] bytes arrived; an error after some but not all
    bytes that is io.EOF becomes io.ErrUnexpectedEOF. *)
Fixpoint readfull_loop (fuel : nat) (k : nat) (c : rawconn) (acc : list byte)
  : rawconn * list byte * option err :=
  match fuel with
  | O => (c, acc, None)
  | S f =>
      if (length acc <? k)%nat then
        match raw_read (k - length acc) c with
        | (c', bs, None) => readfull_loop f k c' (acc ++ bs)
        | (c', bs, Some e) => (c', acc ++ bs, Some e)
        end
      else (c, acc, None)
  end.

Definition io_ReadFull (k : nat) (c : rawconn) : rawconn * list byte * option err :=
  let '(c', bs, e) := readfull_loop (S (S k)) k c [] in
  if (k <=? length bs)%nat then (c', bs, None)
  else match e with
       | Some EOF => if (0 <? length bs)%nat then (c', bs, Some ErrUnexpectedEOF)
                     else (c', bs, Some EOF)
       | Some e' => (c', bs, Some e')
       | None => (c', bs, None)
       end.

(** The checksum-verifying [blockReadStream] is not part of this file; its
    observable behaviour is the sequence of replies its [Read] gives.  A
    reply [(bs, e)] hands out [bs] together with the error [e]; a buffer
    shorter than [bs] takes a prefix and leaves the rest (and [e]) for the
    next call; when the replies are used up the stream returns io.EOF. *)

Definition script := list (list byte * option err).

Definition script_read (k : nat) (s : script) : script * list byte * option err :=
  match s with
  | [] => ([], [], Some EOF)
  | (bs, e) :: rest =>
      if (length bs <=? k)%nat then (rest, bs, e)
      else ((skipn k bs, e) :: rest, firstn k bs, None)
  end.

Fixpoint script_size (s : script) : nat :=
  match s with
  | [] => O
  | (bs, _) :: rest => S (length bs + script_size rest)
  end.

(** All the bytes a stream holds, in order. *)
Fixpoint script_bytes (s : script) : list byte :=
  match s with
  | [] => []
  | (bs, _) :: rest => bs ++ script_bytes rest
  end.

(** What a reader of the stream sees: the bytes up to the first reply that
    carries an error, and that error (io.EOF when the replies run out). *)
Fixpoint stream_view (s : script) : list byte * err :=
  match s with
  | [] => ([], EOF)
  | (bs, Some e) :: _ => (bs, e)
  | (bs, None) :: rest => let '(d, t) := stream_view rest in (bs ++ d, t)
  end.

(** [io.CopyN(ioutil.Discard, stream, n)]: [io.Copy] over
    [io.LimitReader(stream, n)] hands the limited reader to
    [ioutil.Discard.ReadFrom], which reads into an 8 KiB buffer until an
    error, treating io.EOF as success. *)
Definition discard_buf : nat := 8192.

Fixpoint discard_readfrom (fuel : nat) (n : nat) (s : script) (written : nat)
  : script * nat * option err :=
  match fuel with
  | O => (s, written, None)
  | S f =>
      (* LimitedReader.Read: N <= 0 gives (0, io.EOF) *)
      if (n =? 0)%nat then (s, written, None)
      else
        match script_read (Nat.min discard_buf n) s with
        | (s', bs, None) => discard_readfrom f (n - length bs)%nat s' (written + length bs)%nat
        | (s', bs, Some e) =>
            if err_eqb e EOF then (s', (written + length bs)%nat, None)
            else (s', (written + length bs)%nat, Some e)
        end
  end.

Definition io_CopyN_discard (s : script) (n : nat) : script * nat * option err :=
  let '(s', written, e) := discard_readfrom (S (script_size s)) n s O in
  if (written =? n)%nat then (s', n, None)
  else match e with
       | None => if (written <? n)%nat then (s', written, Some EOF) else (s', written, None)
       | Some e' => (s', written, Some e')
       end.

(** ** Varints ([encoding/binary]) *)

Definition MaxVarintLen32 : nat := 5.
Definition MaxVarintLen64 : nat := 10.

(** [binary.Uvarint]: the value and the number of bytes consumed; 0 when
    the buffer ends inside the varint, negative on overflow. *)
Fixpoint uvarint_go (buf : list byte) (i : nat) (x : Z) (s : Z) : Z * Z :=
  match buf with
  | [] => (0, 0)
  | b :: rest =>
      if b <? 128 then
        if (9 <? i)%nat || ((i =? 9)%nat && (1 <? b)) then (0, - (Z.of_nat i + 1))
        else (Z.lor x (Z.shiftl b s), Z.of_nat i + 1)
      else uvarint_go rest (S i) (Z.lor x (Z.shiftl (Z.land b 127) s)) (s + 7)
  end.

Definition Uvarint (buf : list byte) : Z * Z := uvarint_go buf O 0 0.

Example Uvarint_one : Uvarint [3; 9; 9; 9; 9] = (3, 1).
Proof. reflexivity. Qed.
Example Uvarint_two : Uvarint [172; 2; 0; 0; 0] = (300, 2).
Proof. reflexivity. Qed.
Example Uvarint_short : Uvarint [128; 128; 128; 128; 128] = (0, 0).
Proof. reflexivity. Qed.

(** [binary.PutUvarint]: seven bits per byte, low group first, the high
    bit set on every byte but the last. *)
Fixpoint put_uvarint_go (fuel : nat) (x : Z) : list byte :=
  match fuel with
  | O => [x]
  | S f => if x <? 128 then [x]
           else Z.lor (Z.land x 255) 128 :: put_uvarint_go f (Z.shiftr x 7)
  end.

Definition PutUvarint (x : Z) : list byte := put_uvarint_go MaxVarintLen64 x.

Example PutUvarint_300 : PutUvarint 300 = [172; 2].
Proof. reflexivity. Qed.

(** ** Protocol messages (the generated [hadoop_hdfs] types) *)

Inductive result (A : Type) := Ok (a : A) | Err (e : err).
Arguments Ok {A} a.
Arguments Err {A} e.

Record ExtendedBlockProto := {
  poolId : string; blockId : Z; generationStamp : Z; numBytes : Z (* uint64 *)
}.

Record DatanodeIDProto := { ipAddr : string; xferPort : Z (* uint32 *) }.

Record LocatedBlockProto := {
  b : ExtendedBlockProto;
  blockToken : list byte;
  locs : list DatanodeIDProto
}.

Record BaseHeaderProto := { bh_block : ExtendedBlockProto; bh_token : list byte }.
Record ClientOperationHeaderProto := { baseHeader : BaseHeaderProto; clientName : string }.
Record OpReadBlockProto := {
  header : ClientOperationHeaderProto;
  op_offset : Z (* uint64 *);
  op_len : Z (* uint64 *)
}.

(** ChecksumTypeProto values of the Hadoop data-transfer protocol. *)
Definition CHECKSUM_NULL : Z := 0.
Definition CHECKSUM_CRC32 : Z := 1.
Definition CHECKSUM_CRC32C : Z := 2.

Record ChecksumProto := { ck_type : Z; bytesPerChecksum : Z (* uint32 *) }.
Record ReadOpChecksumInfoProto := { checksum : ChecksumProto; chunkOffset : Z (* uint64 *) }.
Record BlockOpResponseProto := { readOpChecksumInfo : ReadOpChecksumInfoProto }.

(** The crc32 tables a [blockReadStream] can verify with. *)
Inductive crc32Table := IEEETable | CastagnoliTable.

(** The [switch checksumType] of [connectNext]. *)
Definition checksumTable (t : Z) : option crc32Table :=
  if Z.eqb t CHECKSUM_CRC32 then Some IEEETable
  else if Z.eqb t CHECKSUM_CRC32C then Some CastagnoliTable
  else None.

(** ** Streams, datanode failover and the world *)

(** A [blockReadStream] over socket [brs_conn]; [brs_replies] is what its
    [Read] hands out (see [script]). *)
Record blockReadStream := {
  brs_conn : nat;
  brs_chunkSize : Z;
  brs_checksumTab : crc32Table;
  brs_replies : script
}.

Definition stream_Read (k : nat) (st : blockReadStream)
  : blockReadStream * list byte * option err :=
  let '(sc', bs, e) := script_read k (brs_replies st) in
  ({| brs_conn := brs_conn st; brs_chunkSize := brs_chunkSize st;
      brs_checksumTab := brs_checksumTab st; brs_replies := sc' |}, bs, e).

(** What dialing a datanode gives: a dial error, or a socket whose
    [Write] returns [werr], whose first bytes ([resp]) carry the response
    header, and on which a [blockReadStream] hands out [data]. *)
Inductive DialOutcome :=
| DialFail (e : err)
| DialOk (werr : option err) (resp : rawconn) (data : script).

(** The process-wide failure cache, the network, the sockets opened and
    not yet closed, and every request written (socket, bytes). *)
Record World := {
  w_failures : gmap string nat;
  w_net : string -> DialOutcome;
  w_nextSock : nat;
  w_open : list nat;
  w_writes : list (nat * list byte)
}.

Definition w_dial (w : World) : World :=
  {| w_failures := w_failures w; w_net := w_net w; w_nextSock := S (w_nextSock w);
     w_open := w_nextSock w :: w_open w; w_writes := w_writes w |}.

(** [conn.Close()] *)
Definition w_close (s : nat) (w : World) : World :=
  {| w_failures := w_failures w; w_net := w_net w; w_nextSock := w_nextSock w;
     w_open := List.filter (fun x => negb (Nat.eqb x s)) (w_open w); w_writes := w_writes w |}.

(** [w.Write(req)] on socket [s] *)
Definition w_write (s : nat) (bs : list byte) (w : World) : World :=
  {| w_failures := w_failures w; w_net := w_net w; w_nextSock := w_nextSock w;
     w_open := w_open w; w_writes := w_writes w ++ [(s, bs)] |}.

(** Modelled from the spec: [datanodeFailover] (datanode_failover.go is not
    part of this file).  Section 4.1: the candidates not yet tried, the one
    popped last, and the last error recorded; [next] pops the remaining
    candidate with the fewest failures in the shared cache (ties go to the
    earlier one); [recordFailure] records the error and bumps the cache
    counter of the candidate popped last. *)
Record datanodeFailover := {
  df_datanodes : list string;
  df_current : string;
  df_err : option err
}.

Definition failures_of (cache : gmap string nat) (a : string) : nat :=
  default O (cache !! a).

Fixpoint best_of (cache : gmap string nat) (best : string) (l : list string) : string :=
  match l with
  | [] => best
  | a :: rest =>
      if (failures_of cache a <? failures_of cache best)%nat
      then best_of cache a rest else best_of cache best rest
  end.

Fixpoint remove_first (a : string) (l : list string) : list string :=
  match l with
  | [] => []
  | x :: rest => if String.eqb x a then rest else x :: remove_first a rest
  end.

Definition newDatanodeFailover (datanodes : list string) : datanodeFailover :=
  {| df_datanodes := datanodes; df_current := ""; df_err := None |}.

Definition numRemaining (df : datanodeFailover) : nat := length (df_datanodes df).

Definition df_next (cache : gmap string nat) (df : datanodeFailover)
  : string * datanodeFailover :=
  match df_datanodes df with
  | [] => ("", df)
  | a :: rest =>
      let picked := best_of cache a rest in
      (picked, {| df_datanodes := remove_first picked (df_datanodes df);
                  df_current := picked; df_err := df_err df |})
  end.

Definition lastError (df : datanodeFailover) : option err := df_err df.

Definition df_recordFailure (e : err) (df : datanodeFailover) (w : World)
  : datanodeFailover * World :=
  let a := df_current df in
  ({| df_datanodes := df_datanodes df; df_current := a; df_err := Some e |},
   {| w_failures := <[a := S (failures_of (w_failures w) a)]> (w_failures w);
      w_net := w_net w; w_nextSock := w_nextSock w; w_open := w_open w;
      w_writes := w_writes w |}).

(** ** The codec and the package constants

    The protobuf codec is an external collaborator; the package constants
    [dataTransferVersion] and [ClientName] are declared in another file of
    the package and enter as parameters. *)

Class ProtoCodec := {
  proto_Marshal : OpReadBlockProto -> result (list byte);
  proto_Unmarshal : list byte -> result BlockOpResponseProto
}.

Class RpcConstants := {
  dataTransferVersion : byte;
  ClientName : string
}.

(** Modelled from the spec: the op code [readBlockOp] (section 6:
    opCode = 0x51; the header comment says READ_BLOCK = 0x51). *)
Definition readBlockOp : byte := 81.

(** ** The block reader *)

Record BlockReader := {
  block : LocatedBlockProto;
  datanodes : datanodeFailover;
  stream : option blockReadStream;
  conn : option nat;
  offset : Z (* int64 *);
  closed : bool
}.

Definition mkBR blk df st c off cl : BlockReader :=
  {| block := blk; datanodes := df; stream := st; conn := c; offset := off; closed := cl |}.

Definition set_datanodes (br : BlockReader) df :=
  mkBR (block br) df (stream br) (conn br) (offset br) (closed br).
Definition set_stream (br : BlockReader) st :=
  mkBR (block br) (datanodes br) st (conn br) (offset br) (closed br).
Definition set_conn (br : BlockReader) c :=
  mkBR (block br) (datanodes br) (stream br) c (offset br) (closed br).
Definition set_offset (br : BlockReader) off :=
  mkBR (block br) (datanodes br) (stream br) (conn br) off (closed br).
Definition set_closed (br : BlockReader) cl :=
  mkBR (block br) (datanodes br) (stream br) (conn br) (offset br) cl.

Definition datanode_address (dn : DatanodeIDProto) : string :=
  ipAddr dn +:+ ":" +:+ pretty (Z.to_N (xferPort dn)).

Definition NewBlockReader (blk : LocatedBlockProto) (off : Z) : BlockReader :=
  mkBR blk (newDatanodeFailover (map datanode_address (locs blk))) None None off false.

(** [br.stream != nil] *)
Definition has_stream (br : BlockReader) : bool :=
  match stream br with Some _ => true | None => false end.

(** [br.datanodes.recordFailure(err)] *)
Definition recordFailure (e : err) (br : BlockReader) (w : World) : BlockReader * World :=
  let '(df, w') := df_recordFailure e (datanodes br) w in (set_datanodes br df, w').

Section Embedding.
Context `{!ProtoCodec} `{!RpcConstants}.

(** Modelled from the spec: [makeDelimitedMsg] (declared in another file
    of the package).  Section 4.3: the serialized message prefixed by its
    length as a varint. *)
Definition makeDelimitedMsg (op : OpReadBlockProto) : result (list byte) :=
  match proto_Marshal op with
  | Err e => Err e
  | Ok msg => Ok (PutUvarint (Z.of_nat (length msg)) ++ msg)
  end.

Definition newBlockReadOp (blk : LocatedBlockProto) (off len : Z) : OpReadBlockProto :=
  {| header := {| baseHeader := {| bh_block := b blk; bh_token := blockToken blk |};
                  clientName := ClientName |};
     op_offset := off; op_len := len |}.

(** [writeBlockReadRequest(conn)] on socket [s], whose [Write] returns
    [werr]. *)
Definition writeBlockReadRequest (br : BlockReader) (s : nat) (werr : option err)
    (w : World) : World * option err :=
  let hdr := [0; dataTransferVersion; readBlockOp] in
  let needed := u64 (numBytes (b (block br)) - u64 (offset br)) in
  let op := newBlockReadOp (block br) (u64 (offset br)) needed in
  match makeDelimitedMsg op with
  | Err e => (w, Some e)
  | Ok opBytes =>
      let w' := w_write s (hdr ++ opBytes) w in
      match werr with
      | Some e => (w', Some e)
      | None => (w', None)
      end
  end.

(** [readBlockReadResponse(conn)]: also returns what is left on the
    connection. *)
Definition readBlockReadResponse (r : rawconn) : rawconn * result BlockOpResponseProto :=
  match io_ReadFull MaxVarintLen32 r with
  | (r1, _, Some e) => (r1, Err e)
  | (r1, varintBytes, None) =>
      let '(respLength, varintLength) := Uvarint varintBytes in
      if varintLength <? 1 then (r1, Err ErrUnexpectedEOF)
      else
        let extra := skipn (Z.to_nat varintLength) varintBytes in
        let extraLength := Nat.min (Z.to_nat respLength) (length extra) in
        match io_ReadFull (Z.to_nat respLength - extraLength) r1 with
        | (r2, _, Some e) => (r2, Err e)
        | (r2, rest, None) => (r2, proto_Unmarshal (firstn extraLength extra ++ rest))
        end
  end.

(** [connectNext()]: [Ok stream] when a stream was installed. *)
Definition connectNext (br0 : BlockReader) (w0 : World)
  : BlockReader * World * result blockReadStream :=
  let '(address, df) := df_next (w_failures w0) (datanodes br0) in
  let br := set_datanodes br0 df in
  match w_net w0 address with
  | DialFail e => (br, w0, Err e)
  | DialOk werr resp data =>
      let sock := w_nextSock w0 in
      let w1 := w_dial w0 in
      match writeBlockReadRequest br sock werr w1 with
      | (w2, Some e) => (br, w2, Err e)
      | (w2, None) =>
          match readBlockReadResponse resp with
          | (_, Err e) => (br, w2, Err e)
          | (_, Ok rsp) =>
              let readInfo := readOpChecksumInfo rsp in
              let checksumInfo := checksum readInfo in
              match checksumTable (ck_type checksumInfo) with
              | None => (br, w2, Err (ErrUnsupportedChecksum (ck_type checksumInfo)))
              | Some tab =>
                  let chunkSize := bytesPerChecksum checksumInfo in
                  let mk sc := {| brs_conn := sock; brs_chunkSize := chunkSize;
                                  brs_checksumTab := tab; brs_replies := sc |} in
                  let amountToDiscard := s64 (offset br - s64 (chunkOffset readInfo)) in
                  let install sc :=
                    (set_conn (set_stream br (Some (mk sc))) (Some sock), w2, Ok (mk sc)) in
                  if 0 <? amountToDiscard then
                    match io_CopyN_discard data (Z.to_nat amountToDiscard) with
                    | (_, _, Some e) =>
                        let e' := if err_eqb e EOF then ErrUnexpectedEOF else e in
                        (br, w_close sock w2, Err e')
                    | (sc', _, None) => install sc'
                    end
                  else install data
              end
          end
      end
  end.

(** [Close()] *)
Definition Close (br : BlockReader) (w : World) : BlockReader * World :=
  (set_closed br true, match conn br with Some s => w_close s w | None => w end).

(** The code after the retry loop. *)
Definition read_exhausted (br : BlockReader) (w : World)
  : BlockReader * World * (list byte * option err) :=
  (br, w, ([], Some (match lastError (datanodes br) with
                     | Some e => e
                     | None => ErrNoDatanodes
                     end))).

(** The head of a loop iteration: the active stream, or [connectNext()]
    when there is none. *)
Definition acquire_stream (br : BlockReader) (w : World)
  : BlockReader * World * result blockReadStream :=
  match stream br with
  | Some st => (br, w, Ok st)
  | None => connectNext br w
  end.

(** The retry loop of [Read(b)], [k = len(b)]; [fuel] bounds the number
    of iterations (see [read_fuel]). *)
Fixpoint read_loop (fuel : nat) (k : nat) (br : BlockReader) (w : World)
  : BlockReader * World * (list byte * option err) :=
  match fuel with
  | O => read_exhausted br w
  | S f =>
      if has_stream br || (0 <? numRemaining (datanodes br))%nat then
        match acquire_stream br w with
        | (br1, w1, Err e) =>
            let '(br2, w2) := recordFailure e br1 w1 in read_loop f k br2 w2
        | (br1, w1, Ok st) =>
            let '(st', bs, e) := stream_Read k st in
            let n := length bs in
            let br2 := set_offset (set_stream br1 (Some st')) (s64 (offset br1 + Z.of_nat n)) in
            match e with
            | Some e' =>
                if err_eqb e' EOF then (br2, w1, (bs, Some EOF))
                else
                  let '(br3, w3) := recordFailure e' (set_stream br2 None) w1 in
                  if (0 <? n)%nat then (br3, w3, (bs, None))
                  else read_loop f k br3 w3
            | None => (br2, w1, (bs, None))
            end
        end
      else read_exhausted br w
  end.

(** Every iteration but the first pops a candidate, and the last only
    evaluates the loop condition. *)
Definition read_fuel (br : BlockReader) : nat := S (S (numRemaining (datanodes br))).

(** [Read(b)] with [k = len(b)]: the bytes read and the error. *)
Definition Read (k : nat) (br : BlockReader) (w : World)
  : BlockReader * World * (list byte * option err) :=
  if closed br then (br, w, ([], Some ErrClosedPipe))
  else if numBytes (b (block br)) <=? u64 (offset br) then
    let '(br', w') := Close br w in (br', w', ([], Some EOF))
  else read_loop (read_fuel br) k br w.

(** A write [(socket, bytes)] carries the read request of block [blk] at
    offset [off], as [writeBlockReadRequest] builds it. *)
Definition sent_request (blk : LocatedBlockProto) (off : Z) (sw : nat * list byte) : Prop :=
  exists opBytes,
    makeDelimitedMsg (newBlockReadOp blk (u64 off) (u64 (numBytes (b blk) - u64 off))) = Ok opBytes /\
    snd sw = [0; dataTransferVersion; readBlockOp] ++ opBytes.

End Embedding.

(** ** A concrete codec and network, for running the model *)

(** A toy codec: a request is its offset and length; a response is the
    two bytes [checksum type; chunk offset]. *)
#[local] Instance toyCodec : ProtoCodec := {
  proto_Marshal := fun op => Ok [op_offset op; op_len op];
  proto_Unmarshal := fun bs =>
    match bs with
    | [t; co] => Ok {| readOpChecksumInfo :=
                         {| checksum := {| ck_type := t; bytesPerChecksum := 512 |};
                            chunkOffset := co |} |}
    | _ => Err (ErrIO 90)
    end
}.

#[local] Instance toyConstants : RpcConstants := {
  dataTransferVersion := 28;
  ClientName := "go-hdfs"
}.

Definition blk10 : LocatedBlockProto :=
  {| b := {| poolId := "pool"; blockId := 7; generationStamp := 1; numBytes := 10 |};
     blockToken := [];
     locs := [ {| ipAddr := "10.0.0.1"; xferPort := 50010 |};
               {| ipAddr := "10.0.0.2"; xferPort := 50010 |} ] |}.

Definition dn1 : string := "10.0.0.1:50010".
Definition dn2 : string := "10.0.0.2:50010".

(** A response header [varint 2; type; chunk offset] padded by two bytes
    of the data stream, as the 5-byte scratch read needs. *)
Definition resp_hdr (t co : Z) : rawconn := {| cin := [2; t; co; 0; 0]; cend := EOF |}.

Definition mkWorld (net : string -> DialOutcome) : World :=
  {| w_failures := ∅; w_net := net; w_nextSock := O; w_open := []; w_writes := [] |}.

Definition net2 (o1 o2 : DialOutcome) : string -> DialOutcome :=
  fun a => if String.eqb a dn1 then o1 else if String.eqb a dn2 then o2 else DialFail (ErrIO 1).

Definition reader_at (off : Z) : BlockReader := NewBlockReader blk10 off.

(** Scenarios. *)

(** dn1's stream fails before handing out a byte; dn2 serves the block. *)
Definition world_midread_failure : World :=
  mkWorld (net2 (DialOk None (resp_hdr 1 0) [([], Some (ErrIO 5))])
                (DialOk None (resp_hdr 1 0) [([0; 1; 2; 3; 4; 5; 6; 7; 8; 9], Some EOF)])).

(** dn1 accepts the connection but the request write fails; dn2 answers
    with a truncated header. *)
Definition world_handshake_failures : World :=
  mkWorld (net2 (DialOk (Some (ErrIO 3)) (resp_hdr 1 0) [])
                (DialOk None {| cin := [9]; cend := EOF |} [])).

(** dn1 answers with checksum type CHECKSUM_NULL; dn2 uses CRC32C. *)
Definition world_unsupported_checksum : World :=
  mkWorld (net2 (DialOk None (resp_hdr CHECKSUM_NULL 0) [([1; 1], Some EOF)])
                (DialOk None (resp_hdr CHECKSUM_CRC32C 0) [([7; 7; 7], Some EOF)])).

(** dn1 serves the block from offset 0 with six bytes. *)
Definition world_aligned_start : World :=
  mkWorld (net2 (DialOk None (resp_hdr CHECKSUM_CRC32 0) [([1; 2; 3; 4; 5; 6], Some EOF)])
                (DialFail (ErrIO 4))).

(** A reader whose active stream hands out two bytes and then fails. *)
Definition stream_two_then_error : blockReadStream :=
  {| brs_conn := O; brs_chunkSize := 512; brs_checksumTab := IEEETable;
     brs_replies := [([1; 2], Some (ErrIO 5))] |}.

(** The stream [connectNext] installs for [reader_at 4] in
    [world_aligned_start], after discarding four bytes. *)
Definition stream_aligned : blockReadStream :=
  {| brs_conn := O; brs_chunkSize := 512; brs_checksumTab := IEEETable;
     brs_replies := [([5; 6], Some EOF)] |}.

Definition reader_streaming : BlockReader :=
  set_conn (set_stream (reader_at 0) (Some stream_two_then_error)) (Some O).

(** A reader with no stream whose candidates are used up, dn2 having
    failed last. *)
Definition reader_exhausted : BlockReader :=
  set_datanodes (reader_at 0) {| df_datanodes := []; df_current := dn2; df_err := Some (ErrIO 4) |}.

(** A block of 2^64 - 1 bytes read from just below 2^63 by a stream that
    hands out five bytes: [br.offset += int64(n)] wraps. *)
Definition blk_huge : LocatedBlockProto :=
  {| b := {| poolId := "pool"; blockId := 8; generationStamp := 1; numBytes := 2 ^ 64 - 1 |};
     blockToken := []; locs := locs blk10 |}.

Definition stream_five : blockReadStream :=
  {| brs_conn := O; brs_chunkSize := 512; brs_checksumTab := IEEETable;
     brs_replies := [([1; 2; 3; 4; 5], Some EOF)] |}.

Definition reader_near_wrap : BlockReader :=
  set_conn (set_stream (NewBlockReader blk_huge (2 ^ 63 - 2)) (Some stream_five)) (Some O).

(** * Properties *)


Lemma discard_buf_pos : (1 <= discard_buf)%nat.
Proof. apply Nat.leb_le. reflexivity. Qed.

Lemma discard_readfrom_step (f n : nat) (s : script) (wr : nat) :
  (n =? 0)%nat = false ->
  discard_readfrom (S f) n s wr =
  match script_read (Nat.min discard_buf n) s with
  | (s', bs, None) => discard_readfrom f (n - length bs)%nat s' (wr + length bs)%nat
  | (s', bs, Some e) =>
      if err_eqb e EOF then (s', (wr + length bs)%nat, None)
      else (s', (wr + length bs)%nat, Some e)
  end.
Proof. intro H. cbn [discard_readfrom]. rewrite H. reflexivity. Qed.

Lemma discard_readfrom_spec (fuel : nat) :
  forall (s : script) (n wr : nat), (script_size s < fuel)%nat ->
  let '(d, t) := stream_view s in
  ((n <= length d)%nat ->
     exists s' eo, discard_readfrom fuel n s wr = (s', (wr + n)%nat, eo) /\
       script_bytes s = firstn n (script_bytes s) ++ script_bytes s') /\
  ((length d < n)%nat ->
     exists s', discard_readfrom fuel n s wr =
       (s', (wr + length d)%nat, if err_eqb t EOF then None else Some t)).
Proof.
  induction fuel as [|f IH]; intros s n wr Hf; [lia|].
  destruct s as [|[bs e] rest].
  - simpl. split.
    + intro Hn. assert (n = O) by lia. subst n. exists [], None.
      rewrite Nat.add_0_r. split; reflexivity.
    + intro Hn. exists []. simpl.
      destruct n; [lia|]. simpl. rewrite Nat.add_0_r. reflexivity.
  - simpl in Hf.
    destruct (Nat.eqb n 0) eqn:En.
    + apply Nat.eqb_eq in En. subst n.
      destruct e as [e|]; simpl; [|destruct (stream_view rest) as [d t]];
        (split; [intros _; eexists _, None; rewrite Nat.add_0_r; split; reflexivity|
                 intro; exfalso; lia]).
    + pose proof En as En0. apply Nat.eqb_neq in En0.
      rewrite (discard_readfrom_step _ _ _ _ En).
      set (L := Nat.min discard_buf n).
      assert (HL : (1 <= L <= n)%nat) by (pose proof discard_buf_pos; unfold L; lia).
      unfold script_read.
      destruct (Nat.leb (length bs) L) eqn:Eb.
      * apply Nat.leb_le in Eb.
        destruct e as [e|].
        -- (* the reply carries an error: the read ends the copy *)
           simpl. split.
           ++ intro Hn. exists rest, (if err_eqb e EOF then None else Some e).
              assert (Hlen : length bs = n) by lia.
              split.
              ** destruct (err_eqb e EOF); rewrite Hlen; reflexivity.
              ** rewrite firstn_app, <- Hlen, firstn_all, Nat.sub_diag. simpl.
                 rewrite app_nil_r. reflexivity.
           ++ intro Hn. exists rest. destruct (err_eqb e EOF); reflexivity.
        -- (* no error: go on with the remaining replies *)
           simpl. specialize (IH rest (n - length bs)%nat (wr + length bs)%nat ltac:(lia)).
           destruct (stream_view rest) as [d t] eqn:Ev.
           destruct IH as [IH1 IH2]. split.
           ++ intro Hn. rewrite length_app in Hn.
              destruct (IH1 ltac:(lia)) as (s' & eo & Hd & Hb).
              exists s', eo. rewrite Hd. split.
              ** f_equal. f_equal. lia.
              ** rewrite firstn_app. rewrite Hb at 1.
                 rewrite app_assoc. f_equal.
                 rewrite (firstn_all2 bs (n:=n)) by lia. reflexivity.
           ++ intro Hn. rewrite length_app in Hn.
              destruct (IH2 ltac:(lia)) as (s' & Hd).
              exists s'. rewrite Hd. rewrite length_app. f_equal. f_equal. lia.
      * (* the buffer takes a prefix of the reply *)
        apply Nat.leb_gt in Eb.
        assert (Hsz : (script_size ((skipn L bs, e) :: rest) < f)%nat)
          by (simpl; rewrite length_skipn; lia).
        specialize (IH ((skipn L bs, e) :: rest) (n - L)%nat (wr + L)%nat Hsz).
        rewrite length_firstn. replace (Nat.min L (length bs)) with L by lia.
        assert (Hpre : forall r1 r2 : list byte,
                   firstn (n - L) (skipn L bs ++ r1) ++ r2 = skipn L bs ++ r1 ->
                   bs ++ r1 = firstn n (bs ++ r1) ++ r2).
        { intros r1 r2 Hr.
          assert (HlenL : length (firstn L bs) = L) by (rewrite length_firstn; lia).
          replace (bs ++ r1) with (firstn L bs ++ (skipn L bs ++ r1))
            by (rewrite app_assoc, firstn_skipn; reflexivity).
          rewrite firstn_app, HlenL, (firstn_all2 (firstn L bs) (n:=n)) by lia.
          rewrite <- app_assoc, Hr. reflexivity. }
        destruct e as [e|].
        -- simpl in IH |- *. rewrite length_skipn in IH.
           destruct IH as [IH1 IH2]. split.
           ++ intro Hn. destruct (IH1 ltac:(lia)) as (s' & eo & Hd & Hb).
              exists s', eo. rewrite Hd. split.
              ** f_equal. f_equal. lia.
              ** apply Hpre. symmetry. exact Hb.
           ++ intro Hn. destruct (IH2 ltac:(lia)) as (s' & Hd).
              exists s'. rewrite Hd. f_equal. f_equal. lia.
        -- simpl in IH |- *.
           destruct (stream_view rest) as [d t] eqn:Ev.
           rewrite length_app, length_skipn in IH. rewrite length_app.
           destruct IH as [IH1 IH2]. split.
           ++ intro Hn. destruct (IH1 ltac:(lia)) as (s' & eo & Hd & Hb).
              exists s', eo. rewrite Hd. split.
              ** f_equal. f_equal. lia.
              ** apply Hpre. symmetry. exact Hb.
           ++ intro Hn. destruct (IH2 ltac:(lia)) as (s' & Hd).
              exists s'. rewrite Hd. f_equal. f_equal. lia.
Qed.

Lemma io_CopyN_discard_spec (s : script) (n : nat) :
  let '(d, t) := stream_view s in
  ((n <= length d)%nat ->
     exists s', io_CopyN_discard s n = (s', n, None) /\
       script_bytes s = firstn n (script_bytes s) ++ script_bytes s') /\
  ((length d < n)%nat ->
     exists s', io_CopyN_discard s n = (s', length d, Some t)).
Proof.
  pose proof (discard_readfrom_spec (S (script_size s)) s n O ltac:(lia)) as Hd.
  unfold io_CopyN_discard.
  destruct (stream_view s) as [d t]. destruct Hd as [H1 H2]. split.
  - intro Hn. destruct (H1 Hn) as (s' & eo & Hr & Hb).
    exists s'. rewrite Hr. simpl. rewrite Nat.eqb_refl. auto.
  - intro Hn. destruct (H2 Hn) as (s' & Hr).
    exists s'. rewrite Hr. simpl.
    destruct (Nat.eqb (length d) n) eqn:E; [apply Nat.eqb_eq in E; lia|].
    destruct (err_eqb t EOF) eqn:Et.
    + apply err_eqb_eq in Et. subst t.
      apply Nat.ltb_lt in Hn. rewrite Hn. reflexivity.
    + reflexivity.
Qed.

Lemma readfull_loop_enough (f k : nat) (c : rawconn) (acc : list byte) :
  (length acc < k)%nat -> (k - length acc <= length (cin c))%nat ->
  readfull_loop (S (S f)) k c acc =
    ({| cin := skipn (k - length acc) (cin c); cend := cend c |},
     acc ++ firstn (k - length acc) (cin c), None).
Proof.
  intros H1 H2. destruct c as [ci ce]. simpl in H2.
  destruct ci as [|x ci]; [simpl in H2; lia|].
  cbn [readfull_loop].
  assert (E1 : (length acc <? k)%nat = true) by (apply Nat.ltb_lt; lia).
  rewrite E1. unfold raw_read. cbn [cin cend].
  assert (E2 : (length (acc ++ firstn (k - length acc) (x :: ci)) <? k)%nat = false)
    by (apply Nat.ltb_ge; rewrite length_app, length_firstn; simpl in *; lia).
  rewrite E2. reflexivity.
Qed.

Lemma readfull_loop_short (f k : nat) (c : rawconn) (acc : list byte) :
  (length acc < k)%nat -> (length (cin c) < k - length acc)%nat ->
  readfull_loop (S (S f)) k c acc =
    ({| cin := []; cend := cend c |}, acc ++ cin c, Some (cend c)).
Proof.
  intros H1 H2. destruct c as [ci ce]. simpl in H2.
  cbn [readfull_loop].
  assert (E1 : (length acc <? k)%nat = true) by (apply Nat.ltb_lt; lia).
  rewrite E1. unfold raw_read. cbn [cin cend].
  destruct ci as [|x ci]; [reflexivity|].
  rewrite (firstn_all2 (x :: ci) (n:=(k - length acc)%nat)) by lia.
  rewrite (skipn_all2 (x :: ci) (n:=(k - length acc)%nat)) by lia.
  assert (E2 : (length (acc ++ x :: ci) <? k)%nat = true)
    by (apply Nat.ltb_lt; rewrite length_app; simpl in *; lia).
  rewrite E2. cbn [cin cend]. rewrite app_nil_r. reflexivity.
Qed.

Lemma io_ReadFull_enough (k : nat) (r : rawconn) :
  (k <= length (cin r))%nat ->
  io_ReadFull k r = ({| cin := skipn k (cin r); cend := cend r |}, firstn k (cin r), None).
Proof.
  intro Hk. unfold io_ReadFull.
  destruct k as [|k'].
  - destruct r; reflexivity.
  - rewrite (readfull_loop_enough (S k') (S k') r []) by (simpl; lia).
    simpl app. rewrite Nat.sub_0_r.
    assert (E : (S k' <=? length (firstn (S k') (cin r)))%nat = true)
      by (apply Nat.leb_le; rewrite length_firstn; lia).
    rewrite E. reflexivity.
Qed.

Lemma io_ReadFull_short (k : nat) (r : rawconn) :
  (length (cin r) < k)%nat ->
  io_ReadFull k r =
    ({| cin := []; cend := cend r |}, cin r,
     Some (match cend r with
           | EOF => if (0 <? length (cin r))%nat then ErrUnexpectedEOF else EOF
           | e => e
           end)).
Proof.
  intro Hk. unfold io_ReadFull.
  destruct k as [|k']; [lia|].
  rewrite (readfull_loop_short (S k') (S k') r []) by (simpl; lia).
  simpl app.
  assert (E : (S k' <=? length (cin r))%nat = false) by (apply Nat.leb_gt; lia).
  rewrite E. destruct (cend r); try reflexivity.
  destruct (0 <? length (cin r))%nat; reflexivity.
Qed.

Section Parsing.
Context `{!ProtoCodec}.

(** The response parser on a connection with at least the five scratch
    bytes and the rest of the message. *)
Lemma readBlockReadResponse_decode (r : rawconn) :
  (5 <= length (cin r))%nat ->
  let '(v, vl) := Uvarint (firstn 5 (cin r)) in
  (vl < 1 -> snd (readBlockReadResponse r) = Err ErrUnexpectedEOF) /\
  (1 <= vl ->
   let extra := skipn (Z.to_nat vl) (firstn 5 (cin r)) in
   let m := Nat.min (Z.to_nat v) (length extra) in
   (5 + (Z.to_nat v - m) <= length (cin r))%nat ->
   readBlockReadResponse r =
     ({| cin := skipn (5 + (Z.to_nat v - m)) (cin r); cend := cend r |},
      proto_Unmarshal (firstn m extra ++ firstn (Z.to_nat v - m) (skipn 5 (cin r))))).
Proof.
  intro H5. unfold readBlockReadResponse.
  rewrite (io_ReadFull_enough MaxVarintLen32 r H5). cbv zeta.
  change MaxVarintLen32 with 5%nat.
  destruct (Uvarint (firstn 5 (cin r))) as [v vl]. split.
  - intro Hv. apply Z.ltb_lt in Hv. rewrite Hv. reflexivity.
  - intros Hv Hlen. apply Z.ltb_ge in Hv. rewrite Hv.
    rewrite io_ReadFull_enough by (cbn [cin]; rewrite (length_skipn 5 (cin r)); lia).
    cbn [cin cend]. rewrite skipn_skipn. f_equal. f_equal. f_equal. lia.
Qed.

(** C6: the five scratch bytes are read once; a varint that consumes no
    byte gives io.ErrUnexpectedEOF; otherwise the scratch bytes after the
    varint are the leading bytes of the message (as many as it has), and
    only the remaining bytes of the message are read from the socket. *)
Theorem readBlockReadResponse_prepends_scratch (r : rawconn) :
  (5 <= length (cin r))%nat ->
  let '(v, vl) := Uvarint (firstn 5 (cin r)) in
  (vl < 1 -> snd (readBlockReadResponse r) = Err ErrUnexpectedEOF) /\
  (1 <= vl ->
   let extra := skipn (Z.to_nat vl) (firstn 5 (cin r)) in
   let m := Nat.min (Z.to_nat v) (length extra) in
   (5 + (Z.to_nat v - m) <= length (cin r))%nat ->
   readBlockReadResponse r =
     ({| cin := skipn (5 + (Z.to_nat v - m)) (cin r); cend := cend r |},
      proto_Unmarshal (firstn m extra ++ firstn (Z.to_nat v - m) (skipn 5 (cin r))))).
Proof. apply readBlockReadResponse_decode. Qed.

(** C10 (as the code has it): fewer than five bytes on the connection make
    the scratch read fail with an I/O error; with five or more bytes, a
    varint and message that fit in the scratch buffer are decoded from it
    and the connection resumes after the five scratch bytes, so the scratch
    bytes past the message are dropped. *)
Theorem readBlockReadResponse_scratch_effects (r : rawconn) :
  ((length (cin r) < 5)%nat ->
   readBlockReadResponse r =
     ({| cin := []; cend := cend r |},
      Err (match cend r with
           | EOF => if (0 <? length (cin r))%nat then ErrUnexpectedEOF else EOF
           | e => e
           end))) /\
  ((5 <= length (cin r))%nat ->
   let '(v, vl) := Uvarint (firstn 5 (cin r)) in
   1 <= vl -> (Z.to_nat vl + Z.to_nat v <= 5)%nat ->
   readBlockReadResponse r =
     ({| cin := skipn 5 (cin r); cend := cend r |},
      proto_Unmarshal (firstn (Z.to_nat v) (skipn (Z.to_nat vl) (cin r))))).
Proof.
  split.
  - intro Hs. unfold readBlockReadResponse.
    rewrite (io_ReadFull_short MaxVarintLen32 r Hs). reflexivity.
  - intro H5. pose proof (readBlockReadResponse_decode r H5) as Hd.
    destruct (Uvarint (firstn 5 (cin r))) as [v vl].
    intros Hv Hsum. destruct Hd as [_ Hd].
    assert (Hex : length (skipn (Z.to_nat vl) (firstn 5 (cin r))) = (5 - Z.to_nat vl)%nat)
      by (rewrite length_skipn, length_firstn; lia).
    specialize (Hd Hv). cbv zeta in Hd. rewrite Hex in Hd.
    replace (Nat.min (Z.to_nat v) (5 - Z.to_nat vl)) with (Z.to_nat v) in Hd by lia.
    rewrite Nat.sub_diag, Nat.add_0_r in Hd. rewrite Hd by lia.
    rewrite app_nil_r. f_equal. f_equal.
    rewrite skipn_firstn_comm, firstn_firstn. f_equal. lia.
Qed.

End Parsing.

Section Properties.
Context `{!ProtoCodec} `{!RpcConstants}.

Lemma connectNext_keeps_offset br w :
  let '(br1, _, _) := connectNext br w in
  offset br1 = offset br /\ block br1 = block br.
Proof.
  unfold connectNext.
  destruct (df_next _ _) as [address df].
  destruct (w_net w address) as [e|werr resp data]; [simpl; auto|].
  destruct (writeBlockReadRequest _ _ _ _) as [w2 [e|]]; [simpl; auto|].
  destruct (readBlockReadResponse resp) as [r' [rsp|e]]; [|simpl; auto].
  destruct (checksumTable _) as [tab|]; [|simpl; auto].
  destruct (0 <? _); [|simpl; auto].
  destruct (io_CopyN_discard _ _) as [[sc' wr] [e|]]; simpl; auto.
Qed.

Lemma recordFailure_fields e br w :
  let '(br', _) := recordFailure e br w in
  offset br' = offset br /\ block br' = block br /\ stream br' = stream br /\
  closed br' = closed br /\ lastError (datanodes br') = Some e /\
  numRemaining (datanodes br') = numRemaining (datanodes br).
Proof. unfold recordFailure, df_recordFailure. simpl. repeat split. Qed.

Lemma recordFailure_writes e br w :
  w_writes (snd (recordFailure e br w)) = w_writes w.
Proof. reflexivity. Qed.

(** C2: a closed reader answers io.ErrClosedPipe and touches nothing; a
    reader at or past the end of the block answers io.EOF and closes, and
    from then on every [Read] answers io.ErrClosedPipe. *)
Theorem Read_closed_or_at_end (k : nat) (br : BlockReader) (w : World) :
  (closed br = true -> Read k br w = (br, w, ([], Some ErrClosedPipe))) /\
  (closed br = false -> numBytes (b (block br)) <= u64 (offset br) ->
   let '(br', w', r) := Read k br w in
   r = ([], Some EOF) /\ closed br' = true /\ offset br' = offset br /\
   w_writes w' = w_writes w /\ w_nextSock w' = w_nextSock w /\
   forall (k' : nat) (w'' : World), Read k' br' w'' = (br', w'', ([], Some ErrClosedPipe))).
Proof.
  split.
  - intro Hc. unfold Read. rewrite Hc. reflexivity.
  - intros Hc Hend. unfold Read. rewrite Hc.
    apply Z.leb_le in Hend. rewrite Hend.
    unfold Close. simpl.
    repeat split; try reflexivity; destruct (conn br); reflexivity.
Qed.

(** C8: when the loop condition finds no active stream and no candidate
    left, [Read] returns no bytes and the last recorded error, or the
    generic "no available datanodes" error when none was recorded. *)
Theorem read_loop_exhausted (fuel k : nat) (br : BlockReader) (w : World) :
  stream br = None -> numRemaining (datanodes br) = O ->
  read_loop fuel k br w =
    (br, w, ([], Some (match lastError (datanodes br) with
                      | Some e => e
                      | None => ErrNoDatanodes
                      end))).
Proof.
  intros Hs Hn. destruct fuel as [|f]; simpl; [reflexivity|].
  unfold has_stream. rewrite Hs, Hn. reflexivity.
Qed.

(** C1: in an iteration where the stream (active, or just connected)
    returns [n] bytes with an error other than io.EOF, [n] is added to the
    offset (an int64 addition, wrapping at 2^63), the stream is dropped and
    the error recorded; with [n > 0] [Read]
    returns the [n] bytes and no error, with [n = 0] the loop goes on. *)
Theorem read_loop_stream_error (f k : nat) (br br1 : BlockReader) (w w1 : World)
    (st st' : blockReadStream) (bs : list byte) (e : err) :
  acquire_stream br w = (br1, w1, Ok st) ->
  stream_Read k st = (st', bs, Some e) ->
  e <> EOF ->
  (has_stream br || (0 <? numRemaining (datanodes br))%nat) = true ->
  let '(br3, w3) :=
    recordFailure e (set_stream (set_offset (set_stream br1 (Some st'))
                                   (s64 (offset br1 + Z.of_nat (length bs)))) None) w1 in
  offset br3 = s64 (offset br + Z.of_nat (length bs)) /\
  stream br3 = None /\
  lastError (datanodes br3) = Some e /\
  ((0 < length bs)%nat -> read_loop (S f) k br w = (br3, w3, (bs, None))) /\
  (length bs = O -> read_loop (S f) k br w = read_loop f k br3 w3).
Proof.
  intros Hacq Hrd Hne Hcond.
  assert (Hoff : offset br1 = offset br).
  { unfold acquire_stream in Hacq. destruct (stream br).
    - inversion Hacq; reflexivity.
    - pose proof (connectNext_keeps_offset br w) as Hk.
      rewrite Hacq in Hk. apply Hk. }
  assert (Hne' : err_eqb e EOF = false).
  { destruct (err_eqb e EOF) eqn:E; [|reflexivity].
    apply err_eqb_eq in E. contradiction. }
  simpl. repeat split.
  - rewrite Hoff. reflexivity.
  - intro Hpos. simpl. rewrite Hcond, Hacq, Hrd, Hne'.
    apply Nat.ltb_lt in Hpos. rewrite Hpos. reflexivity.
  - intro Hz. simpl. rewrite Hcond, Hacq, Hrd, Hne', Hz. reflexivity.
Qed.

Lemma s64_small (x : Z) : -2 ^ 63 <= x < 2 ^ 63 -> s64 x = x.
Proof.
  intro Hx. unfold s64. rewrite Z.mod_small by lia. lia.
Qed.

Lemma u64_small (x : Z) : 0 <= x < 2 ^ 64 -> u64 x = x.
Proof. intro Hx. unfold u64. apply Z.mod_small. lia. Qed.

Lemma In_w_close (s : nat) (w : World) : ~ In s (w_open (w_close s w)).
Proof.
  unfold w_close. simpl. rewrite filter_In. intros [_ Hx].
  rewrite Nat.eqb_refl in Hx. discriminate.
Qed.

(** One iteration that has to connect and fails to: the failure is
    recorded and the loop goes on. *)
Lemma read_loop_connect_error (f k : nat) (br br1 : BlockReader) (w w1 : World) (e : err) :
  stream br = None -> (0 < numRemaining (datanodes br))%nat ->
  connectNext br w = (br1, w1, Err e) ->
  read_loop (S f) k br w =
    let '(br2, w2) := recordFailure e br1 w1 in read_loop f k br2 w2.
Proof.
  intros Hs Hn Hc. cbn [read_loop]. unfold has_stream, acquire_stream. rewrite Hs.
  apply Nat.ltb_lt in Hn. rewrite Hn. simpl. rewrite Hc. reflexivity.
Qed.

(** C5: after a successful handshake whose chunk-aligned start lies below
    the session offset, exactly [offset - chunkOffset] bytes of the new
    stream are discarded before it is installed, and the offset does not
    move; when the stream ends first, the socket is closed, no stream is
    installed, io.ErrUnexpectedEOF is recorded and the loop goes on. *)
Theorem connectNext_discards_to_offset (f k : nat) (br : BlockReader) (w : World)
    (address : string) (df : datanodeFailover) (resp : rawconn) (data : script)
    (r' : rawconn) (rsp : BlockOpResponseProto) (opBytes : list byte) (tab : crc32Table) :
  stream br = None -> (0 < numRemaining (datanodes br))%nat ->
  df_next (w_failures w) (datanodes br) = (address, df) ->
  w_net w address = DialOk None resp data ->
  makeDelimitedMsg (newBlockReadOp (block br) (u64 (offset br))
                      (u64 (numBytes (b (block br)) - u64 (offset br)))) = Ok opBytes ->
  readBlockReadResponse resp = (r', Ok rsp) ->
  checksumTable (ck_type (checksum (readOpChecksumInfo rsp))) = Some tab ->
  0 <= chunkOffset (readOpChecksumInfo rsp) < offset br ->
  offset br < 2 ^ 63 ->
  let amt := Z.to_nat (offset br - chunkOffset (readOpChecksumInfo rsp)) in
  let sock := w_nextSock w in
  let '(d, t) := stream_view data in
  let '(br1, w1, res) := connectNext br w in
  offset br1 = offset br /\
  ((amt <= length d)%nat ->
     exists st, res = Ok st /\ stream br1 = Some st /\ conn br1 = Some sock /\
       script_bytes data = firstn amt (script_bytes data) ++ script_bytes (brs_replies st)) /\
  ((length d < amt)%nat ->
     t = EOF ->
     res = Err ErrUnexpectedEOF /\ stream br1 = None /\ ~ In sock (w_open w1) /\
     let '(br2, w2) := recordFailure ErrUnexpectedEOF br1 w1 in
     offset br2 = offset br /\ lastError (datanodes br2) = Some ErrUnexpectedEOF /\
     read_loop (S f) k br w = read_loop f k br2 w2).
Proof.
  intros Hs Hrem Hnext Hnet Hmsg Hresp Htab Hco Hoff amt sock.
  pose proof (io_CopyN_discard_spec data amt) as Hcp.
  pose proof (connectNext_keeps_offset br w) as Hkeep.
  assert (Hamt : s64 (offset br - s64 (chunkOffset (readOpChecksumInfo rsp))) =
                 offset br - chunkOffset (readOpChecksumInfo rsp)).
  { rewrite (s64_small (chunkOffset _)) by lia. apply s64_small. lia. }
  assert (Hpos : (0 <? offset br - chunkOffset (readOpChecksumInfo rsp)) = true)
    by (apply Z.ltb_lt; lia).
  assert (Hcn : connectNext br w =
    match io_CopyN_discard data amt with
    | (_, _, Some e) =>
        (set_datanodes br df,
         w_close sock (w_write sock ([0; dataTransferVersion; readBlockOp] ++ opBytes) (w_dial w)),
         Err (if err_eqb e EOF then ErrUnexpectedEOF else e))
    | (sc', _, None) =>
        let st := {| brs_conn := sock;
                     brs_chunkSize := bytesPerChecksum (checksum (readOpChecksumInfo rsp));
                     brs_checksumTab := tab; brs_replies := sc' |} in
        (set_conn (set_stream (set_datanodes br df) (Some st)) (Some sock),
         w_write sock ([0; dataTransferVersion; readBlockOp] ++ opBytes) (w_dial w), Ok st)
    end).
  { unfold connectNext. rewrite Hnext, Hnet. unfold writeBlockReadRequest.
    cbn [block offset set_datanodes mkBR]. rewrite Hmsg, Hresp, Htab.
    cbn [offset set_datanodes mkBR]. rewrite Hamt, Hpos. fold amt.
    destruct (io_CopyN_discard data amt) as [[sc' wr] [e|]]; reflexivity. }
  destruct (stream_view data) as [d t].
  destruct Hcp as [Hok Hshort].
  destruct (connectNext br w) as [[br1 w1] res] eqn:Ecn.
  destruct Hkeep as [Hkoff _].
  split; [exact Hkoff|split].
  - intro Hle. destruct (Hok Hle) as (sc' & Hc & Hb).
    rewrite Hc in Hcn. inversion Hcn; subst.
    eexists. split; [reflexivity|]. split; [reflexivity|]. split; [reflexivity|].
    exact Hb.
  - intros Hlt Ht. subst t. destruct (Hshort Hlt) as (sc' & Hc).
    rewrite Hc in Hcn. simpl in Hcn. inversion Hcn; subst.
    rewrite (read_loop_connect_error f k br _ w _ _ Hs Hrem Ecn).
    split; [reflexivity|]. split; [exact Hs|]. split; [apply In_w_close|].
    cbn -[read_loop]. split; [reflexivity|]. split; reflexivity.
Qed.

Lemma connectNext_writes (br : BlockReader) (w : World) :
  let '(br1, w1, _) := connectNext br w in
  block br1 = block br /\ offset br1 = offset br /\
  exists new, w_writes w1 = w_writes w ++ new /\ Forall (sent_request (block br) (offset br)) new.
Proof.
  unfold connectNext.
  destruct (df_next _ _) as [address df].
  destruct (w_net w address) as [e|werr resp data].
  { split; [reflexivity|]. split; [reflexivity|]. exists []. rewrite app_nil_r. auto. }
  unfold writeBlockReadRequest. cbn [block offset set_datanodes mkBR].
  destruct (makeDelimitedMsg _) as [opBytes|e] eqn:Emsg.
  2:{ split; [reflexivity|]. split; [reflexivity|]. exists []. rewrite app_nil_r. auto. }
  assert (Hreq : Forall (sent_request (block br) (offset br))
                   [(w_nextSock w, [0; dataTransferVersion; readBlockOp] ++ opBytes)]).
  { constructor; [|constructor]. exists opBytes. split; [exact Emsg|reflexivity]. }
  destruct werr as [e|];
    [|destruct (readBlockReadResponse resp) as [r' [rsp|e]];
      [destruct (checksumTable _);
       [destruct (0 <? _); [destruct (io_CopyN_discard _ _) as [[sc' wr] [e|]]|]|]|]];
    (split; [reflexivity|]; split; [reflexivity|];
     eexists; split; [|exact Hreq]; reflexivity).
Qed.

Lemma read_loop_writes (fuel k : nat) :
  forall (br : BlockReader) (w : World),
  -2 ^ 63 <= offset br < 2 ^ 63 ->
  let '(_, w', _) := read_loop fuel k br w in
  exists new, w_writes w' = w_writes w ++ new /\ Forall (sent_request (block br) (offset br)) new.
Proof.
  induction fuel as [|f IH]; intros br w Hr.
  { exists []. rewrite app_nil_r. auto. }
  cbn [read_loop].
  destruct (has_stream br || (0 <? numRemaining (datanodes br))%nat).
  2:{ exists []. rewrite app_nil_r. auto. }
  assert (Hacq : let '(br1, w1, _) := acquire_stream br w in
                 block br1 = block br /\ offset br1 = offset br /\
                 exists new, w_writes w1 = w_writes w ++ new /\
                             Forall (sent_request (block br) (offset br)) new).
  { unfold acquire_stream. destruct (stream br).
    - split; [reflexivity|]. split; [reflexivity|]. exists []. rewrite app_nil_r. auto.
    - apply connectNext_writes. }
  destruct (acquire_stream br w) as [[br1 w1] [st|e]].
  - destruct Hacq as (Hb & Ho & new1 & Hw1 & Hf1).
    destruct (stream_Read k st) as [[st' bs] [e|]].
    + destruct (err_eqb e EOF); [exists new1; auto|].
      destruct (Nat.ltb 0 (length bs)) eqn:En; [exists new1; auto|].
      apply Nat.ltb_ge in En. assert (Hz : length bs = O) by lia.
      set (br2 := set_stream (set_offset (set_stream br1 (Some st'))
                                (s64 (offset br1 + Z.of_nat (length bs)))) None).
      pose proof (recordFailure_fields e br2 w1) as Hrf.
      pose proof (recordFailure_writes e br2 w1) as Hrw.
      destruct (recordFailure e br2 w1) as [br3 w3] eqn:Er.
      assert (Ho3' : offset br3 = offset br).
      { destruct Hrf as (Ho3 & _). rewrite Ho3. unfold br2. simpl.
        rewrite Hz, Ho, Z.add_0_r. apply s64_small. exact Hr. }
      specialize (IH br3 w3). rewrite Ho3' in IH. specialize (IH Hr).
      destruct (read_loop f k br3 w3) as [[br4 w4] r4].
      destruct IH as (new2 & Hw2 & Hf2).
      simpl in Hrw. destruct Hrf as (Ho3 & Hb3 & _).
      exists (new1 ++ new2). split.
      * rewrite Hw2, Hrw. simpl. rewrite Hw1, app_assoc. reflexivity.
      * apply Forall_app. split; [exact Hf1|].
        rewrite Hb3 in Hf2. unfold br2 in Hf2. simpl in Hf2.
        rewrite Hb in Hf2. exact Hf2.
    + exists new1. auto.
  - destruct Hacq as (Hb & Ho & new1 & Hw1 & Hf1).
    pose proof (recordFailure_fields e br1 w1) as Hrf.
    pose proof (recordFailure_writes e br1 w1) as Hrw.
    destruct (recordFailure e br1 w1) as [br2 w2] eqn:Er.
    specialize (IH br2 w2). destruct Hrf as (Ho2 & Hb2 & _).
    rewrite Ho2, Ho in IH. specialize (IH Hr).
    destruct (read_loop f k br2 w2) as [[br4 w4] r4].
    destruct IH as (new2 & Hw2 & Hf2).
    simpl in Hrw.
    exists (new1 ++ new2). split.
    + rewrite Hw2, Hrw, Hw1, app_assoc. reflexivity.
    + apply Forall_app. split; [exact Hf1|].
      rewrite Hb2, Hb in Hf2. exact Hf2.
Qed.

(** C7: every request [Read] writes is [0x00], the protocol version, the
    op code 0x51, the varint length of the serialized request and the
    request itself; the request asks for the block from the session offset
    to its end. *)
Theorem Read_request_format (k : nat) (br : BlockReader) (w : World) :
  0 <= offset br < 2 ^ 63 -> 0 <= numBytes (b (block br)) < 2 ^ 64 ->
  let '(_, w', _) := Read k br w in
  exists new, w_writes w' = w_writes w ++ new /\
  Forall (fun sw => exists op msg,
            op = newBlockReadOp (block br) (offset br) (numBytes (b (block br)) - offset br) /\
            op_offset op = offset br /\
            op_len op = numBytes (b (block br)) - offset br /\
            proto_Marshal op = Ok msg /\
            snd sw = [0; dataTransferVersion; 81] ++ PutUvarint (Z.of_nat (length msg)) ++ msg)
         new.
Proof.
  intros Hoff Hnb. unfold Read.
  destruct (closed br).
  { exists []. rewrite app_nil_r. auto. }
  destruct (numBytes (b (block br)) <=? u64 (offset br)) eqn:Eend.
  { unfold Close. simpl. exists []. rewrite app_nil_r.
    split; [destruct (conn br); reflexivity|constructor]. }
  apply Z.leb_gt in Eend. rewrite u64_small in Eend by lia.
  pose proof (read_loop_writes (read_fuel br) k br w ltac:(lia)) as Hl.
  destruct (read_loop (read_fuel br) k br w) as [[br' w'] r].
  destruct Hl as (new & Hw & Hf). exists new. split; [exact Hw|].
  eapply Forall_impl; [exact Hf|].
  intros sw (opBytes & Hm & Hs).
  rewrite (u64_small (offset br)) in Hm by lia.
  rewrite (u64_small (numBytes _ - offset br)) in Hm by lia.
  unfold makeDelimitedMsg in Hm.
  destruct (proto_Marshal _) as [msg|e] eqn:Emar; [|discriminate].
  injection Hm as Hm.
  eexists _, msg. split; [reflexivity|]. split; [reflexivity|]. split; [reflexivity|].
  split; [exact Emar|]. etransitivity; [exact Hs|]. rewrite <- Hm. reflexivity.
Qed.

(** C4 (as the code has it): an unsupported checksum type fails the
    connection attempt with its own error, no stream is installed, the
    error is recorded like any other, and the retry loop goes on to the
    next candidate. *)
Theorem read_loop_unsupported_checksum (f k : nat) (br : BlockReader) (w : World)
    (address : string) (df : datanodeFailover) (resp : rawconn) (data : script)
    (r' : rawconn) (rsp : BlockOpResponseProto) (opBytes : list byte) :
  stream br = None -> (0 < numRemaining (datanodes br))%nat ->
  df_next (w_failures w) (datanodes br) = (address, df) ->
  w_net w address = DialOk None resp data ->
  makeDelimitedMsg (newBlockReadOp (block br) (u64 (offset br))
                      (u64 (numBytes (b (block br)) - u64 (offset br)))) = Ok opBytes ->
  readBlockReadResponse resp = (r', Ok rsp) ->
  checksumTable (ck_type (checksum (readOpChecksumInfo rsp))) = None ->
  let t := ck_type (checksum (readOpChecksumInfo rsp)) in
  exists br1 w1,
    connectNext br w = (br1, w1, Err (ErrUnsupportedChecksum t)) /\
    stream br1 = None /\ datanodes br1 = df /\
    let '(br2, w2) := recordFailure (ErrUnsupportedChecksum t) br1 w1 in
    lastError (datanodes br2) = Some (ErrUnsupportedChecksum t) /\
    offset br2 = offset br /\
    read_loop (S f) k br w = read_loop f k br2 w2.
Proof.
  intros Hs Hrem Hnext Hnet Hmsg Hresp Htab t.
  assert (Hcn : connectNext br w =
    (set_datanodes br df,
     w_write (w_nextSock w) ([0; dataTransferVersion; readBlockOp] ++ opBytes) (w_dial w),
     Err (ErrUnsupportedChecksum t))).
  { unfold connectNext. rewrite Hnext, Hnet. unfold writeBlockReadRequest.
    cbn [block offset set_datanodes mkBR]. rewrite Hmsg, Hresp, Htab. reflexivity. }
  eexists _, _. split; [exact Hcn|]. split; [exact Hs|]. split; [reflexivity|].
  rewrite (read_loop_connect_error f k br _ w _ _ Hs Hrem Hcn).
  cbn -[read_loop]. split; [reflexivity|]. split; reflexivity.
Qed.

End Properties.

(** ** Varints, candidate bookkeeping and more of the reader's behaviour *)

Lemma varint_bits (acc y s : Z) : 0 <= s ->
  Z.lor (Z.lor acc (Z.shiftl (Z.land (Z.lor (Z.land y 255) 128) 127) s))
        (Z.shiftl (Z.shiftr y 7) (s + 7)) = Z.lor acc (Z.shiftl y s).
Proof.
  intro Hs. apply Z.bits_inj'. intros j Hj.
  rewrite !Z.lor_spec, !Z.shiftl_spec by lia.
  rewrite !Z.land_spec, Z.lor_spec, Z.land_spec.
  change 127 with (Z.ones 7). change 255 with (Z.ones 8). change 128 with (2 ^ 7).
  destruct (Z.lt_ge_cases (j - s) 0) as [Hn|Hn].
  - repeat rewrite (Z.testbit_neg_r _ (j - s)) by lia.
    repeat rewrite (Z.testbit_neg_r _ (j - (s + 7))) by lia.
    rewrite !andb_false_l, !orb_false_r. reflexivity.
  - rewrite !Z.testbit_ones_nonneg, Z.pow2_bits_eqb by lia.
    destruct (Z.lt_ge_cases (j - s) 7) as [Hl|Hl].
    + rewrite (Z.testbit_neg_r _ (j - (s + 7))) by lia.
      replace (j - s <? 7) with true by (symmetry; apply Z.ltb_lt; lia).
      replace (j - s <? 8) with true by (symmetry; apply Z.ltb_lt; lia).
      replace (7 =? j - s) with false by (symmetry; apply Z.eqb_neq; lia).
      destruct (Z.testbit y (j - s)), (Z.testbit acc j); reflexivity.
    + rewrite Z.shiftr_spec by lia.
      replace (j - (s + 7) + 7) with (j - s) by lia.
      replace (j - s <? 7) with false by (symmetry; apply Z.ltb_ge; lia).
      rewrite !andb_false_r. destruct (Z.testbit acc j); reflexivity.
Qed.

Lemma lor128_ge (x : Z) : 0 <= x -> 128 <= Z.lor x 128.
Proof.
  intro Hx. destruct (Z.lt_ge_cases (Z.lor x 128) 128) as [Hlt|Hge]; [exfalso|exact Hge].
  assert (Hb : Z.testbit (Z.lor x 128) 7 = true).
  { rewrite Z.lor_spec. change 128 with (2 ^ 7). rewrite Z.pow2_bits_true by lia.
    apply orb_true_r. }
  apply Z.testbit_true in Hb; [|lia].
  rewrite Z.div_small in Hb; [discriminate|].
  split; [apply Z.lor_nonneg; lia|exact Hlt].
Qed.

Lemma put_uvarint_go_small (f : nat) (y : Z) : y < 128 -> put_uvarint_go f y = [y].
Proof.
  intro Hy. destruct f as [|f]; [reflexivity|].
  cbn [put_uvarint_go]. apply Z.ltb_lt in Hy. rewrite Hy. reflexivity.
Qed.

Lemma uvarint_go_put (n : nat) :
  forall (f : nat) (y : Z) (i : nat) (acc s : Z) (l : list byte),
  0 <= y < 2 ^ (7 * Z.of_nat (S n)) -> (n <= f)%nat -> (i + n <= 8)%nat -> 0 <= s ->
  uvarint_go (put_uvarint_go f y ++ l) i acc s =
    (Z.lor acc (Z.shiftl y s), Z.of_nat (i + length (put_uvarint_go f y))) /\
  (length (put_uvarint_go f y) <= S n)%nat.
Proof.
  induction n as [|n IH]; intros f y i acc s l Hy Hf Hi Hs.
  - assert (Hy' : y < 128) by (simpl in Hy; lia).
    rewrite (put_uvarint_go_small f y Hy'). simpl.
    apply Z.ltb_lt in Hy'. rewrite Hy'.
    replace (9 <? i)%nat with false by (symmetry; apply Nat.ltb_ge; lia).
    replace (i =? 9)%nat with false by (symmetry; apply Nat.eqb_neq; lia).
    split; [f_equal; lia|lia].
  - destruct (Z.lt_ge_cases y 128) as [Hy'|Hy'].
    + rewrite (put_uvarint_go_small f y Hy'). simpl.
      apply Z.ltb_lt in Hy'. rewrite Hy'.
      replace (9 <? i)%nat with false by (symmetry; apply Nat.ltb_ge; lia).
      replace (i =? 9)%nat with false by (symmetry; apply Nat.eqb_neq; lia).
      split; [f_equal; lia|lia].
    + destruct f as [|f]; [lia|].
      cbn [put_uvarint_go]. replace (y <? 128) with false by (symmetry; apply Z.ltb_ge; lia).
      assert (Hb : 128 <= Z.lor (Z.land y 255) 128)
        by (apply lor128_ge, Z.land_nonneg; lia).
      cbn [app uvarint_go]. replace (Z.lor (Z.land y 255) 128 <? 128) with false
        by (symmetry; apply Z.ltb_ge; lia).
      assert (Hy7 : 0 <= Z.shiftr y 7 < 2 ^ (7 * Z.of_nat (S n))).
      { rewrite Z.shiftr_div_pow2 by lia. split; [apply Z.div_pos; lia|].
        apply Z.div_lt_upper_bound; [lia|].
        replace (2 ^ 7 * 2 ^ (7 * Z.of_nat (S n))) with (2 ^ (7 * Z.of_nat (S (S n)))); [lia|].
        rewrite <- Z.pow_add_r by lia. f_equal. lia. }
      destruct (IH f (Z.shiftr y 7) (S i)
                   (Z.lor acc (Z.shiftl (Z.land (Z.lor (Z.land y 255) 128) 127) s))
                   (s + 7) l Hy7 ltac:(lia) ltac:(lia) ltac:(lia)) as [Hr Hlen].
      rewrite Hr, varint_bits by lia. cbn [length].
      split; [f_equal; lia|lia].
Qed.

Lemma Uvarint_PutUvarint (x : Z) (l : list byte) :
  0 <= x < 2 ^ 63 ->
  Uvarint (PutUvarint x ++ l) = (x, Z.of_nat (length (PutUvarint x))).
Proof.
  intro Hx. unfold Uvarint, PutUvarint.
  destruct (uvarint_go_put 8 MaxVarintLen64 x O 0 0 l ltac:(simpl; lia)
              ltac:(unfold MaxVarintLen64; lia) ltac:(lia) ltac:(lia)) as [Hr _].
  rewrite Hr, Z.shiftl_0_r, Z.lor_0_l. reflexivity.
Qed.

Lemma PutUvarint_length (x : Z) (n : nat) :
  0 <= x < 2 ^ (7 * Z.of_nat (S n)) -> (n <= 8)%nat ->
  (1 <= length (PutUvarint x) <= S n)%nat.
Proof.
  intros Hx Hn. unfold PutUvarint.
  destruct (uvarint_go_put n MaxVarintLen64 x O 0 0 [] Hx
              ltac:(unfold MaxVarintLen64; lia) ltac:(lia) ltac:(lia)) as [_ Hlen].
  split; [|exact Hlen].
  destruct MaxVarintLen64; simpl; [lia|]. destruct (x <? 128); simpl; lia.
Qed.

Lemma Uvarint_length (buf : list byte) :
  let '(v, vl) := Uvarint buf in vl <= Z.of_nat (length buf).
Proof.
  unfold Uvarint.
  assert (Hg : forall l i x s, let '(v, vl) := uvarint_go l i x s in
                               vl <= Z.of_nat (i + length l)).
  { induction l as [|c l IH]; intros i x s; simpl; [lia|].
    destruct (c <? 128); [destruct (_ || _); simpl; lia|].
    specialize (IH (S i) (Z.lor x (Z.shiftl (Z.land c 127) s)) (s + 7)).
    destruct (uvarint_go l _ _ _). lia. }
  apply (Hg buf O 0 0).
Qed.

Lemma best_of_In (c : gmap string nat) (best : string) (l : list string) :
  In (best_of c best l) (best :: l).
Proof.
  revert best. induction l as [|a l IH]; intro best; simpl; [auto|].
  destruct (failures_of c a <? failures_of c best)%nat.
  - destruct (IH a) as [Ha|Ha]; auto.
  - destruct (IH best) as [Ha|Ha]; auto.
Qed.

Lemma remove_first_length (a : string) (l : list string) :
  In a l -> length (remove_first a l) = pred (length l).
Proof.
  induction l as [|x l IH]; simpl; [contradiction|].
  destruct (String.eqb x a) eqn:E; [reflexivity|].
  intros [Hx|Hin].
  - subst x. rewrite String.eqb_refl in E. discriminate.
  - simpl. rewrite (IH Hin). destruct l; [contradiction|reflexivity].
Qed.

Lemma df_next_numRemaining (c : gmap string nat) (df : datanodeFailover) :
  numRemaining (snd (df_next c df)) = pred (numRemaining df).
Proof.
  unfold df_next, numRemaining.
  destruct (df_datanodes df) as [|a rest] eqn:E; [simpl; rewrite E; reflexivity|].
  cbn [snd df_datanodes]. rewrite remove_first_length by apply best_of_In. reflexivity.
Qed.

Section Behaviour.
Context `{!ProtoCodec} `{!RpcConstants}.

Lemma connectNext_shape (br : BlockReader) (w : World) :
  let '(br1, w1, res) := connectNext br w in
  block br1 = block br /\ offset br1 = offset br /\ closed br1 = closed br /\
  numRemaining (datanodes br1) = pred (numRemaining (datanodes br)) /\
  (w_nextSock w <= w_nextSock w1 <= S (w_nextSock w))%nat /\
  match res with
  | Ok st => stream br1 = Some st /\ conn br1 = Some (w_nextSock w) /\
             brs_conn st = w_nextSock w /\ In (w_nextSock w) (w_open w1)
  | Err _ => stream br1 = stream br /\ conn br1 = conn br
  end.
Proof.
  unfold connectNext.
  pose proof (df_next_numRemaining (w_failures w) (datanodes br)) as Hn.
  destruct (df_next _ _) as [address df]. simpl in Hn.
  destruct (w_net w address) as [e|werr resp data]; [cbn; repeat split; auto|].
  unfold writeBlockReadRequest. cbn [block offset set_datanodes mkBR].
  destruct (makeDelimitedMsg _) as [opBytes|e] eqn:Emsg; [|cbn; repeat split; auto].
  destruct werr as [e|]; [cbn; repeat split; auto|].
  destruct (readBlockReadResponse resp) as [r' [rsp|e]]; [|cbn; repeat split; auto].
  destruct (checksumTable _) as [tab|]; [|cbn; repeat split; auto].
  destruct (0 <? _).
  - destruct (io_CopyN_discard _ _) as [[sc' wr] [e|]]; cbn; repeat split; auto.
  - cbn; repeat split; auto.
Qed.

Lemma recordFailure_nextSock e br w :
  w_nextSock (snd (recordFailure e br w)) = w_nextSock w.
Proof. reflexivity. Qed.

Lemma read_loop_fuel_mono (k : nat) :
  forall (f1 f2 : nat) (br : BlockReader) (w : World),
  ((if has_stream br then 1 else 0) + numRemaining (datanodes br) + 1 <= f1)%nat ->
  ((if has_stream br then 1 else 0) + numRemaining (datanodes br) + 1 <= f2)%nat ->
  read_loop f1 k br w = read_loop f2 k br w.
Proof.
  induction f1 as [|f1 IH]; intros f2 br w H1 H2; [lia|].
  destruct f2 as [|f2]; [lia|].
  cbn [read_loop].
  destruct (has_stream br || (0 <? numRemaining (datanodes br))%nat) eqn:Ec; [|reflexivity].
  unfold acquire_stream.
  destruct (stream br) as [st|] eqn:Es.
  - unfold has_stream in H1, H2. rewrite Es in H1, H2.
    destruct (stream_Read k st) as [[st' bs] [e|]]; [|reflexivity].
    destruct (err_eqb e EOF); [reflexivity|].
    set (br2 := set_stream (set_offset (set_stream br (Some st'))
                              (s64 (offset br + Z.of_nat (length bs)))) None).
    pose proof (recordFailure_fields e br2 w) as Hrf.
    destruct (recordFailure e br2 w) as [br3 w3].
    destruct (0 <? length bs)%nat; [reflexivity|].
    destruct Hrf as (_ & _ & Hs3 & _ & _ & Hn3).
    apply IH; unfold has_stream; rewrite Hs3, Hn3; simpl; lia.
  - unfold has_stream in H1, H2, Ec. rewrite Es in H1, H2, Ec.
    apply Nat.ltb_lt in Ec.
    pose proof (connectNext_shape br w) as Hc.
    destruct (connectNext br w) as [[br1 w1] [st|e]];
      destruct Hc as (_ & _ & _ & Hn1 & _ & Hs1 & _).
    + destruct (stream_Read k st) as [[st' bs] [e|]]; [|reflexivity].
      destruct (err_eqb e EOF); [reflexivity|].
      set (br2 := set_stream (set_offset (set_stream br1 (Some st'))
                                (s64 (offset br1 + Z.of_nat (length bs)))) None).
      pose proof (recordFailure_fields e br2 w1) as Hrf.
      destruct (recordFailure e br2 w1) as [br3 w3].
      destruct (0 <? length bs)%nat; [reflexivity|].
      destruct Hrf as (_ & _ & Hs3 & _ & _ & Hn3).
      apply IH; unfold has_stream; rewrite Hs3, Hn3; simpl; rewrite Hn1; lia.
    + pose proof (recordFailure_fields e br1 w1) as Hrf.
      destruct (recordFailure e br1 w1) as [br2 w2].
      destruct Hrf as (_ & _ & Hs2 & _ & _ & Hn2).
      apply IH; unfold has_stream; rewrite Hs2, Hs1, Es, Hn2, Hn1; lia.
Qed.

Lemma s64_range (x : Z) : -2 ^ 63 <= s64 x < 2 ^ 63.
Proof.
  unfold s64. pose proof (Z.mod_pos_bound (x + 2 ^ 63) (2 ^ 64)) as Hm. lia.
Qed.

Lemma read_loop_offset (k : nat) :
  forall (fuel : nat) (br : BlockReader) (w : World),
  -2 ^ 63 <= offset br < 2 ^ 63 ->
  let '(br', w', r) := read_loop fuel k br w in
  offset br' = s64 (offset br + Z.of_nat (length (fst r))) /\ block br' = block br.
Proof.
  induction fuel as [|f IH]; intros br w Hr.
  { simpl. rewrite Z.add_0_r, s64_small by exact Hr. split; reflexivity. }
  cbn [read_loop].
  destruct (has_stream br || (0 <? numRemaining (datanodes br))%nat);
    [|simpl; rewrite Z.add_0_r, s64_small by exact Hr; split; reflexivity].
  assert (Hacq : let '(br1, w1, _) := acquire_stream br w in
                 offset br1 = offset br /\ block br1 = block br).
  { unfold acquire_stream. destruct (stream br); [auto|].
    pose proof (connectNext_shape br w) as Hc.
    destruct (connectNext br w) as [[br1 w1] res]. destruct Hc as (Hb & Ho & _). auto. }
  destruct (acquire_stream br w) as [[br1 w1] [st|e]]; destruct Hacq as [Ho1 Hb1].
  - destruct (stream_Read k st) as [[st' bs] [e|]].
    + destruct (err_eqb e EOF); [simpl; rewrite Ho1; split; [reflexivity|exact Hb1]|].
      set (br2 := set_stream (set_offset (set_stream br1 (Some st'))
                                (s64 (offset br1 + Z.of_nat (length bs)))) None).
      pose proof (recordFailure_fields e br2 w1) as Hrf.
      destruct (recordFailure e br2 w1) as [br3 w3].
      destruct Hrf as (Ho3 & Hb3 & _).
      destruct (0 <? length bs)%nat eqn:En.
      * simpl. rewrite Ho3, Hb3. simpl. rewrite Ho1. split; [reflexivity|exact Hb1].
      * apply Nat.ltb_ge in En. assert (Hz : length bs = O) by lia.
        assert (Ho3' : offset br3 = offset br).
        { rewrite Ho3. simpl. rewrite Ho1, Hz, Z.add_0_r. apply s64_small. exact Hr. }
        specialize (IH br3 w3). rewrite Ho3' in IH. specialize (IH Hr).
        destruct (read_loop f k br3 w3) as [[br4 w4] r4].
        destruct IH as [Ho4 Hb4]. rewrite Ho4, Hb4, Hb3. simpl.
        split; [reflexivity|exact Hb1].
    + simpl. rewrite Ho1. split; [reflexivity|exact Hb1].
  - pose proof (recordFailure_fields e br1 w1) as Hrf.
    destruct (recordFailure e br1 w1) as [br2 w2].
    destruct Hrf as (Ho2 & Hb2 & _).
    specialize (IH br2 w2). rewrite Ho2, Ho1 in IH. specialize (IH Hr).
    destruct (read_loop f k br2 w2) as [[br4 w4] r4].
    destruct IH as [Ho4 Hb4]. rewrite Ho4, Hb4, Hb2. split; [reflexivity|exact Hb1].
Qed.

Lemma read_loop_dials (k : nat) :
  forall (fuel : nat) (br : BlockReader) (w : World),
  let '(br', w', r) := read_loop fuel k br w in
  (w_nextSock w <= w_nextSock w')%nat /\
  (w_nextSock w' + numRemaining (datanodes br') <=
     w_nextSock w + numRemaining (datanodes br))%nat.
Proof.
  induction fuel as [|f IH]; intros br w.
  { simpl. lia. }
  cbn [read_loop].
  destruct (has_stream br || (0 <? numRemaining (datanodes br))%nat) eqn:Ec; [|simpl; lia].
  assert (Hacq : let '(br1, w1, _) := acquire_stream br w in
                 (w_nextSock w <= w_nextSock w1)%nat /\
                 (w_nextSock w1 + numRemaining (datanodes br1) <=
                    w_nextSock w + numRemaining (datanodes br))%nat).
  { unfold acquire_stream. destruct (stream br) eqn:Es; [lia|].
    unfold has_stream in Ec. rewrite Es in Ec. apply Nat.ltb_lt in Ec.
    pose proof (connectNext_shape br w) as Hc.
    destruct (connectNext br w) as [[br1 w1] res]. destruct Hc as (_ & _ & _ & Hn & Hs & _).
    lia. }
  destruct (acquire_stream br w) as [[br1 w1] [st|e]]; destruct Hacq as [Hm1 Hp1].
  - destruct (stream_Read k st) as [[st' bs] [e|]]; [|simpl; lia].
    destruct (err_eqb e EOF); [simpl; lia|].
    set (br2 := set_stream (set_offset (set_stream br1 (Some st'))
                              (s64 (offset br1 + Z.of_nat (length bs)))) None).
    pose proof (recordFailure_fields e br2 w1) as Hrf.
    pose proof (recordFailure_nextSock e br2 w1) as Hrs.
    destruct (recordFailure e br2 w1) as [br3 w3].
    destruct Hrf as (_ & _ & _ & _ & _ & Hn3). simpl in Hrs.
    destruct (0 <? length bs)%nat.
    + simpl. rewrite Hn3. simpl. lia.
    + specialize (IH br3 w3). destruct (read_loop f k br3 w3) as [[br4 w4] r4].
      rewrite Hn3 in IH. simpl in IH. lia.
  - pose proof (recordFailure_fields e br1 w1) as Hrf.
    pose proof (recordFailure_nextSock e br1 w1) as Hrs.
    destruct (recordFailure e br1 w1) as [br2 w2].
    destruct Hrf as (_ & _ & _ & _ & _ & Hn2). simpl in Hrs.
    specialize (IH br2 w2). destruct (read_loop f k br2 w2) as [[br4 w4] r4].
    rewrite Hn2 in IH. lia.
Qed.

(** Every [Read] on a reader whose offset is an [int64] moves the session
    offset by the number of bytes it returns, with Go's [int64] wrap-around
    ([br.offset += int64(n)]), and never changes the block. *)
Theorem Read_offset_accounting (k : nat) (br : BlockReader) (w : World) :
  -2 ^ 63 <= offset br < 2 ^ 63 ->
  let '(br', w', r) := Read k br w in
  offset br' = s64 (offset br + Z.of_nat (length (fst r))) /\ block br' = block br.
Proof.
  intro Hr. unfold Read.
  destruct (closed br); [simpl; rewrite Z.add_0_r, s64_small by exact Hr; split; reflexivity|].
  destruct (numBytes (b (block br)) <=? u64 (offset br));
    [simpl; rewrite Z.add_0_r, s64_small by exact Hr; split; reflexivity|].
  apply read_loop_offset. exact Hr.
Qed.

(** The retry loop of [Read] ends within [numRemaining + 1] iterations:
    any larger iteration bound gives the same result. *)
Theorem read_loop_fuel_enough (f k : nat) (br : BlockReader) (w : World) :
  (read_fuel br <= f)%nat -> read_loop f k br w = read_loop (read_fuel br) k br w.
Proof.
  intro Hf. apply read_loop_fuel_mono; unfold read_fuel in *; destruct (has_stream br); lia.
Qed.

(** A [Read] dials at most as many sockets as it has untried candidates,
    and each socket it dials uses one of them up. *)
Theorem Read_dial_bound (k : nat) (br : BlockReader) (w : World) :
  let '(br', w', _) := Read k br w in
  (w_nextSock w <= w_nextSock w')%nat /\
  (w_nextSock w' - w_nextSock w + numRemaining (datanodes br') <=
     numRemaining (datanodes br))%nat.
Proof.
  unfold Read. destruct (closed br); [simpl; lia|].
  destruct (numBytes (b (block br)) <=? u64 (offset br)).
  { unfold Close. destruct (conn br); simpl; lia. }
  pose proof (read_loop_dials k (read_fuel br) br w) as Hd.
  destruct (read_loop (read_fuel br) k br w) as [[br' w'] r]. lia.
Qed.

(** [Close] marks the reader closed and closes the socket it holds, and
    nothing else: the other sockets, the requests written and the reader's
    other fields are unchanged; closing again changes nothing. *)
Theorem Close_spec (br : BlockReader) (w : World) :
  let '(br', w') := Close br w in
  closed br' = true /\ stream br' = stream br /\ conn br' = conn br /\
  offset br' = offset br /\ block br' = block br /\
  w_writes w' = w_writes w /\ w_nextSock w' = w_nextSock w /\
  (forall s, In s (w_open w') <-> In s (w_open w) /\ conn br <> Some s) /\
  Close br' w' = (br', w').
Proof.
  unfold Close. destruct (conn br) as [c|] eqn:Ec.
  - do 7 (split; [cbn; rewrite ?Ec; reflexivity|]). split.
    + intro s. cbn [w_close w_open]. rewrite filter_In. split.
      * intros [Hs Hx]. split; [exact Hs|]. intro Heq. injection Heq as <-.
        rewrite Nat.eqb_refl in Hx. discriminate.
      * intros [Hs Hne]. split; [exact Hs|].
        destruct (Nat.eqb_spec s c); [subst; contradiction|reflexivity].
    + cbn [conn set_closed mkBR]. rewrite Ec. unfold w_close. cbn [w_open w_failures w_net w_nextSock w_writes].
      assert (Hf : forall l, List.filter (fun x => negb (x =? c)%nat)
                               (List.filter (fun x => negb (x =? c)%nat) l) =
                             List.filter (fun x => negb (x =? c)%nat) l).
      { induction l as [|x l IH]; [reflexivity|].
        cbn [List.filter]. destruct (negb (x =? c)%nat) eqn:Ex; [|exact IH].
        cbn [List.filter]. rewrite Ex, IH. reflexivity. }
      rewrite Hf. reflexivity.
  - do 7 (split; [cbn; rewrite ?Ec; reflexivity|]). split.
    + intro s. split; [intro Hs; split; [exact Hs|discriminate]|tauto].
    + cbn [conn set_closed mkBR]. rewrite Ec. reflexivity.
Qed.

(** A reader created at a negative offset reads nothing: [uint64(offset)]
    wraps to at least 2^63, past the end of any block shorter than that, so
    the first [Read] returns io.EOF and closes the reader without dialing. *)
Theorem Read_negative_offset (blk : LocatedBlockProto) (off : Z) (k : nat) (w : World) :
  -2 ^ 63 <= off < 0 -> 0 <= numBytes (b blk) < 2 ^ 63 ->
  Read k (NewBlockReader blk off) w =
    (set_closed (NewBlockReader blk off) true, w, ([], Some EOF)).
Proof.
  intros Hoff Hnb. unfold Read. cbn [closed NewBlockReader mkBR block offset].
  assert (Hu : u64 off = off + 2 ^ 64).
  { unfold u64. symmetry. apply (Z.mod_unique _ _ (-1)); lia. }
  replace (numBytes (b blk) <=? u64 off) with true by (symmetry; apply Z.leb_le; lia).
  reflexivity.
Qed.

(** [Read] writes a request only when the session offset lies inside the
    block: [0 <= offset < numBytes]. *)
Theorem Read_requests_within_block (k : nat) (br : BlockReader) (w : World) :
  -2 ^ 63 <= offset br < 2 ^ 63 -> 0 <= numBytes (b (block br)) < 2 ^ 63 ->
  let '(_, w', _) := Read k br w in
  w_writes w' <> w_writes w -> 0 <= offset br < numBytes (b (block br)).
Proof.
  intros Hoff Hnb. unfold Read.
  destruct (closed br); [simpl; congruence|].
  destruct (numBytes (b (block br)) <=? u64 (offset br)) eqn:Eend.
  { unfold Close. destruct (conn br); simpl; congruence. }
  destruct (read_loop (read_fuel br) k br w) as [[br' w'] r]. intros _.
  apply Z.leb_gt in Eend.
  destruct (Z.lt_ge_cases (offset br) 0) as [Hn|Hn].
  - exfalso. assert (Hu : u64 (offset br) = offset br + 2 ^ 64).
    { unfold u64. symmetry. apply (Z.mod_unique _ _ (-1)); lia. }
    lia.
  - rewrite (u64_small (offset br)) in Eend by lia. lia.
Qed.

(** When [connectNext] succeeds, the stream it returns is the active one,
    it reads from the socket just dialed, that socket is stored as
    [br.conn] and left open, and the offset is unchanged. *)
Theorem connectNext_success (br : BlockReader) (w : World) (st : blockReadStream) :
  let '(br1, w1, res) := connectNext br w in
  res = Ok st ->
  stream br1 = Some st /\ conn br1 = Some (w_nextSock w) /\ brs_conn st = w_nextSock w /\
  In (w_nextSock w) (w_open w1) /\ offset br1 = offset br /\ closed br1 = closed br.
Proof.
  pose proof (connectNext_shape br w) as Hc.
  destruct (connectNext br w) as [[br1 w1] [st'|e]]; intro Heq; [|discriminate].
  injection Heq as <-. destruct Hc as (_ & Ho & Hcl & _ & _ & Hs & Hcn & Hb & Hin).
  repeat split; assumption.
Qed.

(** When [connectNext] fails, it installs no stream and leaves [br.conn],
    the offset and the closed flag as they were. *)
Theorem connectNext_failure (br : BlockReader) (w : World) (e : err) :
  let '(br1, w1, res) := connectNext br w in
  res = Err e ->
  stream br1 = stream br /\ conn br1 = conn br /\ offset br1 = offset br /\
  closed br1 = closed br.
Proof.
  pose proof (connectNext_shape br w) as Hc.
  destruct (connectNext br w) as [[br1 w1] [st|e']]; intro Heq; [discriminate|].
  destruct Hc as (_ & Ho & Hcl & _ & _ & Hs & Hcn).
  repeat split; assumption.
Qed.

(** When the chunk-aligned start the datanode reports is at or past the
    session offset, nothing is discarded: the new stream is installed with
    all of its data, the checksum table of the response and its chunk
    size. *)
Theorem connectNext_no_discard (br : BlockReader) (w : World)
    (address : string) (df : datanodeFailover) (resp : rawconn) (data : script)
    (r' : rawconn) (rsp : BlockOpResponseProto) (opBytes : list byte) (tab : crc32Table) :
  df_next (w_failures w) (datanodes br) = (address, df) ->
  w_net w address = DialOk None resp data ->
  makeDelimitedMsg (newBlockReadOp (block br) (u64 (offset br))
                      (u64 (numBytes (b (block br)) - u64 (offset br)))) = Ok opBytes ->
  readBlockReadResponse resp = (r', Ok rsp) ->
  checksumTable (ck_type (checksum (readOpChecksumInfo rsp))) = Some tab ->
  0 <= offset br <= chunkOffset (readOpChecksumInfo rsp) ->
  chunkOffset (readOpChecksumInfo rsp) < 2 ^ 63 ->
  let '(br1, w1, res) := connectNext br w in
  exists st, res = Ok st /\ stream br1 = Some st /\ brs_replies st = data /\
    brs_checksumTab st = tab /\
    brs_chunkSize st = bytesPerChecksum (checksum (readOpChecksumInfo rsp)).
Proof.
  intros Hnext Hnet Hmsg Hresp Htab Hco Hlt.
  unfold connectNext. rewrite Hnext, Hnet. unfold writeBlockReadRequest.
  cbn [block offset set_datanodes mkBR]. rewrite Hmsg, Hresp, Htab.
  cbn [offset set_datanodes mkBR].
  rewrite (s64_small (chunkOffset _)) by lia.
  rewrite (s64_small (offset br - _)) by lia.
  replace (0 <? offset br - chunkOffset (readOpChecksumInfo rsp)) with false
    by (symmetry; apply Z.ltb_ge; lia).
  eexists. repeat split.
Qed.

Lemma readBlockReadResponse_prefixed (pre msg rest : list byte) (e : err) :
  (forall l, Uvarint (pre ++ l) = (Z.of_nat (length msg), Z.of_nat (length pre))) ->
  (1 <= length pre <= 5)%nat -> (5 <= length pre + length msg)%nat ->
  readBlockReadResponse {| cin := pre ++ msg ++ rest; cend := e |} =
    ({| cin := rest; cend := e |}, proto_Unmarshal msg).
Proof.
  intros Hu Hp H5.
  set (r := {| cin := pre ++ msg ++ rest; cend := e |}).
  assert (Hl : (5 <= length (cin r))%nat) by (cbn; rewrite !length_app; lia).
  pose proof (readBlockReadResponse_decode r Hl) as Hd.
  assert (Hf5 : firstn 5 (cin r) = pre ++ firstn (5 - length pre) msg).
  { cbn [r cin]. rewrite firstn_app, (firstn_all2 pre (n:=5%nat)) by lia.
    f_equal. rewrite firstn_app.
    replace (5 - length pre - length msg)%nat with O by lia.
    rewrite app_nil_r. reflexivity. }
  rewrite Hf5, Hu in Hd. cbv beta iota zeta in Hd.
  destruct Hd as [_ Hd]. specialize (Hd ltac:(lia)). rewrite !Nat2Z.id in Hd.
  rewrite skipn_app, skipn_all, Nat.sub_diag in Hd. cbn [app] in Hd.
  rewrite skipn_0, length_firstn in Hd.
  replace (Nat.min (length msg) (Nat.min (5 - length pre) (length msg)))
    with (5 - length pre)%nat in Hd by lia.
  rewrite Hd by (cbn; rewrite !length_app; lia).
  cbn [r cin cend]. f_equal.
  - f_equal. rewrite app_assoc.
    replace (5 + (length msg - (5 - length pre)))%nat with (length (pre ++ msg))
      by (rewrite length_app; lia).
    apply drop_app_length.
  - f_equal. rewrite firstn_firstn, Nat.min_id.
    rewrite skipn_app, (skipn_all2 pre (n:=5%nat)) by lia. cbn [app].
    rewrite skipn_app. replace (5 - length pre - length msg)%nat with O by lia.
    cbn [skipn]. rewrite firstn_app, length_skipn.
    rewrite Nat.sub_diag. cbn [firstn]. rewrite app_nil_r.
    rewrite (firstn_all2 (skipn (5 - length pre) msg)) by (rewrite length_skipn; lia).
    apply firstn_skipn.
Qed.

(** A length-delimited response of at least five bytes, the varint
    [PutUvarint] writes followed by the message, is decoded exactly: the
    message is unmarshalled and the connection is left right after it. *)
Theorem readBlockReadResponse_delimited (msg rest : list byte) (e : err) :
  Z.of_nat (length msg) < 2 ^ 35 ->
  (5 <= length (PutUvarint (Z.of_nat (length msg))) + length msg)%nat ->
  readBlockReadResponse
    {| cin := PutUvarint (Z.of_nat (length msg)) ++ msg ++ rest; cend := e |} =
    ({| cin := rest; cend := e |}, proto_Unmarshal msg).
Proof.
  intros Hv H5. apply readBlockReadResponse_prefixed; [| |exact H5].
  - intro l. apply Uvarint_PutUvarint. lia.
  - apply (PutUvarint_length _ 4); [simpl; lia|lia].
Qed.

(** When a well-formed length prefix announces more bytes than the
    connection delivers before it closes, parsing fails: with io.EOF when
    the connection held only the five scratch bytes, with
    io.ErrUnexpectedEOF when it ends inside the message. *)
Theorem readBlockReadResponse_truncated (r : rawconn) :
  cend r = EOF -> (5 <= length (cin r))%nat ->
  let '(v, vl) := Uvarint (firstn 5 (cin r)) in
  1 <= vl -> (length (cin r) < Z.to_nat vl + Z.to_nat v)%nat ->
  snd (readBlockReadResponse r) =
    Err (if (length (cin r) =? 5)%nat then EOF else ErrUnexpectedEOF).
Proof.
  intros Hend H5.
  pose proof (Uvarint_length (firstn 5 (cin r))) as Hvl.
  rewrite length_firstn in Hvl.
  unfold readBlockReadResponse. change MaxVarintLen32 with 5%nat.
  rewrite (io_ReadFull_enough 5 r H5). cbv beta iota zeta.
  destruct (Uvarint (firstn 5 (cin r))) as [v vl]. intros Hv Hshort.
  replace (vl <? 1) with false by (symmetry; apply Z.ltb_ge; lia).
  assert (Hex : length (skipn (Z.to_nat vl) (firstn 5 (cin r))) = (5 - Z.to_nat vl)%nat)
    by (rewrite length_skipn, length_firstn; lia).
  rewrite Hex.
  rewrite io_ReadFull_short by (cbn [cin]; rewrite length_skipn; lia).
  cbn [cin cend snd]. rewrite Hend, length_skipn.
  destruct (Nat.eqb_spec (length (cin r)) 5) as [E|E].
  - rewrite E. reflexivity.
  - replace (0 <? length (cin r) - 5)%nat with true by (symmetry; apply Nat.ltb_lt; lia).
    reflexivity.
Qed.

End Behaviour.

(** ** Witnesses, counterexamples and runs on concrete inputs *)

Lemma read_loop_stream_error_witness :
  let '(br', w', r) := read_loop 4 10 reader_streaming world_aligned_start in
  r = ([1; 2], None) /\ offset br' = 2 /\ stream br' = None /\
  lastError (datanodes br') = Some (ErrIO 5).
Proof.
  pose proof (read_loop_stream_error 3 10 reader_streaming reader_streaming
                world_aligned_start world_aligned_start stream_two_then_error _
                [1; 2] (ErrIO 5) eq_refl eq_refl ltac:(discriminate) eq_refl) as Hw.
  revert Hw.
  destruct (recordFailure _ _ _) as [br3 w3].
  intros (Ho & Hs & He & Hp & _).
  rewrite (Hp ltac:(simpl; lia)).
  split; [reflexivity|]. split; [exact Ho|]. split; [exact Hs|exact He].
Defined.

Lemma Read_closed_or_at_end_witness :
  Read 1 (set_closed (reader_at 0) true) world_aligned_start =
    (set_closed (reader_at 0) true, world_aligned_start, ([], Some ErrClosedPipe)) /\
  let '(br', w', r) := Read 1 (reader_at 10) world_aligned_start in
  r = ([], Some EOF) /\ closed br' = true /\
  Read 1 br' world_aligned_start = (br', world_aligned_start, ([], Some ErrClosedPipe)).
Proof.
  split.
  - apply (proj1 (Read_closed_or_at_end 1 (set_closed (reader_at 0) true) world_aligned_start)).
    reflexivity.
  - pose proof (proj2 (Read_closed_or_at_end 1 (reader_at 10) world_aligned_start)
                  eq_refl ltac:(vm_compute; discriminate)) as Hw.
    revert Hw. destruct (Read 1 (reader_at 10) world_aligned_start) as [[br' w'] r].
    intros (Hr & Hc & _ & _ & _ & Hn).
    split; [exact Hr|]. split; [exact Hc|]. apply Hn.
Defined.

Lemma read_loop_exhausted_witness :
  read_loop 2 10 reader_exhausted world_aligned_start =
    (reader_exhausted, world_aligned_start, ([], Some (ErrIO 4))).
Proof.
  exact (read_loop_exhausted 2 10 reader_exhausted world_aligned_start eq_refl eq_refl).
Defined.

Lemma connectNext_discards_to_offset_witness :
  let (p, res) := connectNext (reader_at 4) world_aligned_start in
  offset (fst p) = 4 /\ conn (fst p) = Some O /\
  exists st, res = Ok st /\ stream (fst p) = Some st /\ script_bytes (brs_replies st) = [5; 6].
Proof.
  pose proof (connectNext_discards_to_offset 0 10 (reader_at 4) world_aligned_start
                dn1 _ _ _ _ _ _ _ eq_refl ltac:(apply Nat.ltb_lt; reflexivity)
                eq_refl eq_refl eq_refl eq_refl eq_refl
                ltac:(simpl; lia) ltac:(simpl; lia)) as Hw.
  revert Hw. cbv zeta. cbn [stream_view script_bytes app].
  destruct (connectNext (reader_at 4) world_aligned_start) as [[br1 w1] res].
  intros (Ho & Hok & _). split; [exact Ho|].
  destruct (Hok ltac:(simpl; lia)) as (st & Hr & Hst & Hc & Hb).
  split; [exact Hc|]. exists st. split; [exact Hr|]. split; [exact Hst|].
  simpl in Hb. inversion Hb. reflexivity.
Defined.

Lemma readBlockReadResponse_prepends_scratch_witness :
  readBlockReadResponse {| cin := [6; 1; 2; 3; 4; 5; 6; 7; 8]; cend := EOF |} =
    ({| cin := [7; 8]; cend := EOF |}, proto_Unmarshal [1; 2; 3; 4; 5; 6]).
Proof.
  pose proof (readBlockReadResponse_prepends_scratch
                {| cin := [6; 1; 2; 3; 4; 5; 6; 7; 8]; cend := EOF |}
                ltac:(apply Nat.leb_le; reflexivity)) as Hw.
  change (Uvarint (firstn 5 (cin {| cin := [6; 1; 2; 3; 4; 5; 6; 7; 8]; cend := EOF |})))
    with (6, 1) in Hw.
  cbv beta iota zeta in Hw. destruct Hw as [_ Hw].
  exact (Hw ltac:(lia) ltac:(apply Nat.leb_le; reflexivity)).
Defined.

Lemma readBlockReadResponse_scratch_effects_witness :
  readBlockReadResponse {| cin := [2; 1]; cend := EOF |} =
    ({| cin := []; cend := EOF |}, Err ErrUnexpectedEOF) /\
  readBlockReadResponse (resp_hdr CHECKSUM_CRC32 0) =
    ({| cin := []; cend := EOF |}, proto_Unmarshal [CHECKSUM_CRC32; 0]).
Proof.
  split.
  - exact (proj1 (readBlockReadResponse_scratch_effects {| cin := [2; 1]; cend := EOF |})
                 ltac:(apply Nat.ltb_lt; reflexivity)).
  - pose proof (proj2 (readBlockReadResponse_scratch_effects (resp_hdr CHECKSUM_CRC32 0))
                      ltac:(apply Nat.leb_le; reflexivity)) as Hw.
    change (Uvarint (firstn 5 (cin (resp_hdr CHECKSUM_CRC32 0)))) with (2, 1) in Hw.
    cbv beta iota zeta in Hw.
    exact (Hw ltac:(lia) ltac:(apply Nat.leb_le; reflexivity)).
Defined.

(** C10 fails: a three-byte response (varint 2, then two message bytes)
    followed by data parses, it does not fail; only the two data bytes
    after it are lost. *)
Lemma readBlockReadResponse_short_response_parses :
  readBlockReadResponse (resp_hdr CHECKSUM_CRC32 0) =
    ({| cin := []; cend := EOF |},
     Ok {| readOpChecksumInfo :=
             {| checksum := {| ck_type := CHECKSUM_CRC32; bytesPerChecksum := 512 |};
                chunkOffset := 0 |} |}).
Proof. reflexivity. Qed.

Lemma read_loop_unsupported_checksum_witness :
  exists br1 w1,
    connectNext (reader_at 0) world_unsupported_checksum =
      (br1, w1, Err (ErrUnsupportedChecksum CHECKSUM_NULL)) /\
    stream br1 = None.
Proof.
  pose proof (read_loop_unsupported_checksum 1 10 (reader_at 0) world_unsupported_checksum
                dn1 _ _ _ _ _ _ eq_refl ltac:(apply Nat.ltb_lt; reflexivity)
                eq_refl eq_refl eq_refl eq_refl eq_refl) as Hw.
  cbv zeta in Hw. destruct Hw as (br1 & w1 & Hc & Hs & _).
  exists br1, w1. split; [exact Hc|exact Hs].
Defined.

(** C4 fails: dn1 answers with CHECKSUM_NULL, and [Read] does not stop
    there: it fails over to dn2, writes a second request and returns
    dn2's bytes. *)
Lemma Read_unsupported_checksum_fails_over :
  let '(br', w', r) := Read 10 (reader_at 0) world_unsupported_checksum in
  fst r = [7; 7; 7] /\ length (w_writes w') = 2%nat.
Proof. vm_compute. split; reflexivity. Qed.

Lemma Read_request_format_witness :
  length (w_writes (snd (fst (Read 10 (reader_at 4) world_aligned_start)))) = 1%nat /\
  Forall (fun sw => snd sw = [0; 28; 81; 2; 4; 6])
         (w_writes (snd (fst (Read 10 (reader_at 4) world_aligned_start)))).
Proof.
  split; [vm_compute; reflexivity|].
  pose proof (Read_request_format 10 (reader_at 4) world_aligned_start
                ltac:(simpl; lia) ltac:(simpl; lia)) as Hw.
  revert Hw. destruct (Read 10 (reader_at 4) world_aligned_start) as [[br' w'] r].
  intros (new & Hn & Hf). cbn [fst snd]. rewrite Hn.
  eapply Forall_impl; [exact Hf|].
  intros sw (op & msg & Hop & _ & _ & Hm & Hs). subst op.
  cbn in Hm. injection Hm as <-. rewrite Hs. reflexivity.
Defined.

(** C3 fails: dn1's stream fails before any byte, the stream is dropped
    but its socket 0 is not closed, and the failover dials socket 1; both
    stay open. *)
Lemma Read_leaves_dropped_socket_open :
  let '(br', w', r) := Read 10 (reader_at 0) world_midread_failure in
  fst r = [0; 1; 2; 3; 4; 5; 6; 7; 8; 9] /\ conn br' = Some 1%nat /\
  w_open w' = [1%nat; 0%nat].
Proof. vm_compute. repeat split. Qed.

(** C9 fails: the request write to dn1 fails and dn2's response is cut
    short; both sockets stay open after the failed attempts. *)
Lemma Read_leaves_handshake_socket_open :
  let '(br', w', r) := Read 10 (reader_at 0) world_handshake_failures in
  r = ([], Some ErrUnexpectedEOF) /\ stream br' = None /\
  w_open w' = [1%nat; 0%nat].
Proof. vm_compute. repeat split. Qed.

Lemma read_loop_fuel_enough_witness :
  read_loop 10 10 (reader_at 0) world_midread_failure =
    read_loop (read_fuel (reader_at 0)) 10 (reader_at 0) world_midread_failure.
Proof.
  apply read_loop_fuel_enough. apply Nat.leb_le. reflexivity.
Defined.

Lemma Close_spec_witness :
  ~ In O (w_open (snd (Close reader_streaming (w_dial world_aligned_start)))).
Proof.
  pose proof (Close_spec reader_streaming (w_dial world_aligned_start)) as Hw.
  revert Hw. destruct (Close reader_streaming (w_dial world_aligned_start)) as [br' w'].
  intros (_ & _ & _ & _ & _ & _ & _ & Hiff & _) Hin.
  apply Hiff in Hin. destruct Hin as [_ Hne]. apply Hne. reflexivity.
Defined.

Lemma Read_negative_offset_witness :
  Read 10 (NewBlockReader blk10 (-3)) world_aligned_start =
    (set_closed (NewBlockReader blk10 (-3)) true, world_aligned_start, ([], Some EOF)).
Proof.
  apply Read_negative_offset; simpl; lia.
Defined.

Lemma Read_requests_within_block_witness :
  let '(_, w', _) := Read 10 (reader_at 4) world_aligned_start in
  w_writes w' <> w_writes world_aligned_start ->
  0 <= offset (reader_at 4) < numBytes (b (block (reader_at 4))).
Proof.
  exact (Read_requests_within_block 10 (reader_at 4) world_aligned_start
           ltac:(simpl; lia) ltac:(simpl; lia)).
Defined.

Lemma connectNext_success_witness :
  let '(br1, w1, res) := connectNext (reader_at 4) world_aligned_start in
  stream br1 = Some stream_aligned /\ conn br1 = Some O /\ In O (w_open w1).
Proof.
  pose proof (connectNext_success (reader_at 4) world_aligned_start stream_aligned) as Hw.
  revert Hw.
  destruct (connectNext (reader_at 4) world_aligned_start) as [[br1 w1] res] eqn:E.
  intro Hw. assert (Hr : res = Ok stream_aligned) by (vm_compute in E; inversion E; reflexivity).
  destruct (Hw Hr) as (Hs & Hc & _ & Hin & _).
  split; [exact Hs|]. split; [exact Hc|exact Hin].
Defined.

Lemma connectNext_failure_witness :
  let '(br1, _, res) := connectNext (reader_at 0) world_handshake_failures in
  res = Err (ErrIO 3) /\ stream br1 = None /\ conn br1 = None.
Proof.
  pose proof (connectNext_failure (reader_at 0) world_handshake_failures (ErrIO 3)) as Hw.
  revert Hw.
  destruct (connectNext (reader_at 0) world_handshake_failures) as [[br1 w1] res] eqn:E.
  intro Hw. assert (Hr : res = Err (ErrIO 3)) by (vm_compute in E; inversion E; reflexivity).
  destruct (Hw Hr) as (Hs & Hc & _).
  split; [exact Hr|]. split; [exact Hs|exact Hc].
Defined.

Lemma connectNext_no_discard_witness :
  let '(_, _, res) := connectNext (reader_at 0) world_aligned_start in
  exists st, res = Ok st /\ brs_replies st = [([1; 2; 3; 4; 5; 6], Some EOF)].
Proof.
  pose proof (connectNext_no_discard (reader_at 0) world_aligned_start dn1 _ _ _ _ _ _ _
                eq_refl eq_refl eq_refl eq_refl eq_refl
                ltac:(simpl; lia) ltac:(simpl; lia)) as Hw.
  revert Hw. destruct (connectNext (reader_at 0) world_aligned_start) as [[br1 w1] res].
  intros (st & Hr & _ & Hd & _). exists st. split; [exact Hr|exact Hd].
Defined.

Lemma readBlockReadResponse_delimited_witness :
  readBlockReadResponse {| cin := [4; 1; 2; 3; 4; 9]; cend := EOF |} =
    ({| cin := [9]; cend := EOF |}, proto_Unmarshal [1; 2; 3; 4]).
Proof.
  exact (readBlockReadResponse_delimited [1; 2; 3; 4] [9] EOF
           ltac:(simpl; lia) ltac:(apply Nat.leb_le; reflexivity)).
Defined.

Lemma readBlockReadResponse_truncated_witness :
  snd (readBlockReadResponse {| cin := [6; 1; 2; 3; 4]; cend := EOF |}) = Err EOF /\
  snd (readBlockReadResponse {| cin := [6; 1; 2; 3; 4; 5]; cend := EOF |}) = Err ErrUnexpectedEOF.
Proof.
  split.
  - pose proof (readBlockReadResponse_truncated {| cin := [6; 1; 2; 3; 4]; cend := EOF |}
                  eq_refl ltac:(apply Nat.leb_le; reflexivity)) as Hw.
    change (Uvarint (firstn 5 (cin {| cin := [6; 1; 2; 3; 4]; cend := EOF |}))) with (6, 1) in Hw.
    cbv beta iota zeta in Hw.
    exact (Hw ltac:(lia) ltac:(apply Nat.ltb_lt; reflexivity)).
  - pose proof (readBlockReadResponse_truncated {| cin := [6; 1; 2; 3; 4; 5]; cend := EOF |}
                  eq_refl ltac:(apply Nat.leb_le; reflexivity)) as Hw.
    change (Uvarint (firstn 5 (cin {| cin := [6; 1; 2; 3; 4; 5]; cend := EOF |}))) with (6, 1) in Hw.
    cbv beta iota zeta in Hw.
    exact (Hw ltac:(lia) ltac:(apply Nat.ltb_lt; reflexivity)).
Defined.

Lemma Read_offset_accounting_witness :
  let '(br', _, r) := Read 10 reader_near_wrap world_aligned_start in
  fst r = [1; 2; 3; 4; 5] /\ offset br' = - 2 ^ 63 + 3 /\ block br' = blk_huge.
Proof.
  assert (Hr : snd (Read 10 reader_near_wrap world_aligned_start) = ([1; 2; 3; 4; 5], Some EOF))
    by (vm_compute; reflexivity).
  pose proof (Read_offset_accounting 10 reader_near_wrap world_aligned_start
                ltac:(simpl; lia)) as Hw.
  revert Hw Hr. destruct (Read 10 reader_near_wrap world_aligned_start) as [[br' w'] r].
  intros [Ho Hb] Hr. simpl in Hr. subst r.
  split; [reflexivity|]. split; [rewrite Ho; vm_compute; reflexivity|exact Hb].
Defined.
